(** * loki-helper: validated collections over a document store

    A shallow embedding of [lib/collection.js] (the collection initializer and
    the validated mutation methods it attaches to a collection), together
    with the parts of its collaborators that the code calls: lodash object
    helpers, Joi validation results, custom error kinds and the document
    collection engine. *)

From stdpp Require Import gmap strings list list_numbers fin_maps pretty.
From Stdlib Require Import ZArith Ascii.

#[local] Set Warnings "-register-all".
#[local] Open Scope Z_scope.

(** ** JavaScript values

    JSON-like values.  Numbers are integers; an array is the sequence of its
    elements, a missing element being [undefined]; a plain object is a
    finite map from property names to values, so two objects are equal
    exactly when they have the same properties with equal values. *)

Inductive jsval : Type :=
| Undefined
| Null
| Bool (b : bool)
| Num (n : Z)
| Str (s : string)
| Arr (items : list jsval)
| Obj (fields : gmap string jsval).

(** A document is a plain object. *)
Abbreviation record := (gmap string jsval).

#[global] Instance jsval_eq_dec : EqDecision jsval.
Proof.
  refine (fix go (x y : jsval) {struct x} : Decision (x = y) :=
    let _ : EqDecision jsval := go in
    match x, y with
    | Undefined, Undefined => left _
    | Null, Null => left _
    | Bool a, Bool b => cast_if (decide (a = b))
    | Num a, Num b => cast_if (decide (a = b))
    | Str a, Str b => cast_if (decide (a = b))
    | Arr a, Arr b => cast_if (decide (a = b))
    | Obj a, Obj b => cast_if (decide (a = b))
    | _, _ => right _
    end); abstract congruence.
Defined.

(** [o[k]]: reading a missing property gives [undefined]. *)
Definition prop (o : record) (k : string) : jsval := default Undefined (o !! k).

(** Truthiness, as tested by [if (v)], [v && ...] and [!v]. *)
Definition truthy (v : jsval) : bool :=
  match v with
  | Undefined | Null => false
  | Bool b => b
  | Num n => negb (n =? 0)
  | Str s => negb (bool_decide (s = ""))
  | Arr _ | Obj _ => true
  end.

(** [v === null || v === undefined]. *)
Definition nullish (v : jsval) : bool :=
  match v with Undefined | Null => true | _ => false end.

(** String conversion, as performed by a template literal. *)
Fixpoint toString (v : jsval) : string :=
  match v with
  | Undefined => "undefined"
  | Null => "null"
  | Bool true => "true"
  | Bool false => "false"
  | Num n => pretty n
  | Str s => s
  | Arr l =>
      (fix join (l : list jsval) : string :=
         match l with
         | [] => ""
         | x :: l' =>
             let e := if nullish x then "" else toString x in
             match l' with [] => e | _ => e +:+ "," +:+ join l' end
         end) l
  | Obj _ => "[object Object]"
  end.

(** ** lodash and Object helpers *)

(** [_.isEqual]: deep comparison. *)
Definition isEqual (a b : jsval) : bool := bool_decide (a = b).

(** [_.isObject]. *)
Definition isObject (v : jsval) : bool :=
  match v with Arr _ | Obj _ => true | _ => false end.

(** [_.pick(o, keys)]: the properties of [o] named in [keys]. *)
Definition pick (o : record) (keys : list string) : record :=
  filter (λ kv, kv.1 ∈ keys) o.

(** [Object.assign({}, a, b)]: properties of [b] override those of [a]. *)
Definition assign (a b : record) : record := b ∪ a.

(** [_.difference(xs, ys)]. *)
Definition difference (xs ys : list string) : list string :=
  list_difference xs ys.

(** *** Array indices

    For lodash, as for JavaScript, an array is an object whose elements are
    the properties named by their indices. *)

Definition digit (a : ascii) : option N :=
  let n := N_of_ascii a in
  if ((48 <=? n) && (n <=? 57))%N then Some (n - 48)%N else None.

Fixpoint digits (s : string) (acc : N) : option N :=
  match s with
  | EmptyString => Some acc
  | String a s' =>
      match digit a with
      | Some d => digits s' (10 * acc + d)%N
      | None => None
      end
  end.

(** The number that the property name [k] is the decimal numeral of. *)
Definition numeral (k : string) : option nat :=
  match digits k 0 with
  | Some n => if decide (pretty n = k) then Some (N.to_nat n) else None
  | None => None
  end.

(** The array index that [k] names: a numeral below [2^32 - 1].  Assigning
    to such a property of an array sets that element. *)
Definition arrayIndex (k : string) : option nat :=
  match digits k 0 with
  | Some n =>
      if decide (pretty n = k ∧ (n < 4294967295)%N) then Some (N.to_nat n) else None
  | None => None
  end.

(** [array[k]] for an array of elements [l]. *)
Definition element (l : list jsval) (k : string) : jsval :=
  match numeral k with
  | Some i => default Undefined (l !! i)
  | None => Undefined
  end.

(** One more than the last array index among the property names of [s]. *)
Definition extent (s : gmap string jsval) : nat :=
  max_list (omap (λ kv, S <$> arrayIndex kv.1) (map_to_list s)).

(** The customizer of [_.defaultsDeep], with the recursion of [baseMerge]
    that it starts: the value left at a property of the destination that
    holds [objValue] when a source offers [srcValue].  [undefined] takes
    the source's value; any other value that is no object or array is kept,
    and so is an object or array offered a value that is not one.  When
    both are objects or arrays, every property of the source is offered to
    the destination in the same way, an array's properties being its
    elements ([keysIn] lists the indices [0 .. length - 1]):
    - object into object: property by property;
    - array into array: element by element, a longer source extending the
      destination;
    - array into object: the object gets the elements under the names
      ["0"], ["1"], ...;
    - object into array: a property named by an array index sets that
      element, extending the array where the index is beyond its end.  A
      property with any other name becomes a named property of the array
      object; an array here is its elements, so this is not recorded. *)
Fixpoint customDefaultsMerge (objValue srcValue : jsval) {struct srcValue} : jsval :=
  match objValue with
  | Undefined => srcValue
  | Obj t =>
      match srcValue with
      | Obj s =>
          Obj (map_imap (λ k sv, Some (customDefaultsMerge (prop t k) sv)) s ∪ t)
      | Arr s =>
          Obj (list_to_map
                 ((fix go (i : nat) (s : list jsval) : list (string * jsval) :=
                     match s with
                     | [] => []
                     | sv :: s' =>
                         (pretty i, customDefaultsMerge (prop t (pretty i)) sv)
                           :: go (S i) s'
                     end) 0%nat s) ∪ t)
      | _ => objValue
      end
  | Arr t =>
      match srcValue with
      | Arr s =>
          Arr ((fix go (s t : list jsval) : list jsval :=
                  match s, t with
                  | [], _ => t
                  | sv :: s', [] => customDefaultsMerge Undefined sv :: go s' []
                  | sv :: s', tv :: t' => customDefaultsMerge tv sv :: go s' t'
                  end) s t)
      | Obj s =>
          let merged :=
            map_imap (λ k sv, Some (customDefaultsMerge (element t k) sv)) s in
          Arr ((λ i, default (default Undefined (t !! i)) (merged !! pretty i))
                 <$> seq 0 (Nat.max (length t) (extent s)))
      | _ => objValue
      end
  | _ => objValue
  end.

(** [baseMerge(object, source)] under that customizer: every property of the
    source is offered to the destination. *)
Definition baseMerge (object source : record) : record :=
  map_imap (λ k sv, Some (customDefaultsMerge (prop object k) sv)) source ∪ object.

(** [_.defaultsDeep(object, ...sources)]: sources are applied left to right. *)
Definition defaultsDeep (object : record) (sources : list record) : record :=
  foldl baseMerge object sources.

(** [_.cloneDeep]: values are immutable here, a clone is the value. *)
Definition cloneDeep (o : record) : record := o.

(** ** Errors ([lib/error.js]) *)

(** An error made by [errorFactory(name)] carries its kind's name, an
    optional message and extra properties.  The engine throws plain
    [Error]s and [TypeError]s. *)
Inductive exn : Type :=
| CustomError (name : string) (message : option string) (props : gmap string jsval)
| EngineError (message : string)
| TypeError (message : string).

Definition errorFactory (name : string) (message : option string)
    (props : record) : exn :=
  CustomError name message props.

Definition ValidationError := errorFactory "ValidationError".
Definition ObjectNotFoundError := errorFactory "ObjectNotFoundError".

Definition exn_name (e : exn) : string :=
  match e with
  | CustomError n _ _ => n
  | EngineError _ => "Error"
  | TypeError _ => "TypeError"
  end.

(** ** Computations that mutate a store and may throw

    A thrown exception does not undo the mutations made before it: the
    store is returned on both outcomes. *)

Inductive result (A : Type) : Type :=
| Ok (a : A)
| Throw (e : exn).
Arguments Ok {A} a.
Arguments Throw {A} e.

Definition M (S A : Type) : Type := S → result A * S.

Definition ret {S A} (a : A) : M S A := λ s, (Ok a, s).
Definition throw {S A} (e : exn) : M S A := λ s, (Throw e, s).
Definition bind {S A B} (m : M S A) (k : A → M S B) : M S B :=
  λ s, match m s with
       | (Ok a, s') => k a s'
       | (Throw e, s') => (Throw e, s')
       end.
Definition gets {S A} (f : S → A) : M S A := λ s, (Ok (f s), s).

Notation "'let*' x ':=' m 'in' k" := (bind m (λ x, k))
  (at level 10, x pattern, m at level 100, k at level 200).
Notation "m ';;' k" := (bind m (λ _, k))
  (at level 100, k at level 200, right associativity).

(** ** Joi validation results *)

(** [schema.validate(v)] returns [{ error, value }]. *)
Record JoiResult (A : Type) : Type := { error : option (gmap string jsval); value : A }.
Arguments error {A} _.
Arguments value {A} _.

(** A schema is used only through [validate]. *)
Definition schema (A : Type) : Type := A → JoiResult A.

Definition joiError (message : string) : record :=
  {[ "isJoi" := Bool true;
     "name" := Str "ValidationError";
     "details" := Arr [Obj {[ "message" := Str message ]}] ]}.

Module Joi.
(** [Joi.any()] *)
Definition any {A} : schema A := λ v, {| error := None; value := v |}.
End Joi.

(** [lib/schema.js]: [lokiID = Joi.number().integer().min(1)].  Numbers are
    integers here and stand for JavaScript's safe integers, up to
    [2^53 - 1]: beyond them [integer()] refuses a number, and the engine's
    counter is no longer exact.  Identifiers are numbers; the conversion of
    a numeric string to its number is not part of this. *)
Definition lokiID : schema jsval := λ v,
  match v with
  | Num n =>
      if 1 <=? n then {| error := None; value := v |}
      else {| error := Some (joiError "must be larger than or equal to 1"); value := v |}
  | _ => {| error := Some (joiError "must be a number"); value := v |}
  end.

(** Schema for input validation ([collection.js], lines 10-19). *)
Module Schema.
(** [Joi.string().min(1)]: a string, and not the empty one. *)
Definition uniqueKey : schema jsval := λ v,
  match v with
  | Str s =>
      if bool_decide (s = "")
      then {| error := Some (joiError "is not allowed to be empty"); value := v |}
      else {| error := None; value := v |}
  | _ => {| error := Some (joiError "must be a string"); value := v |}
  end.

(** [Joi.array().items(uniqueKey).unique()] *)
Definition uniqueKeys : schema jsval := λ v,
  match v with
  | Arr items =>
      if negb (forallb (λ x, bool_decide (error (uniqueKey x) = None)) items)
      then {| error := Some (joiError "items do not match"); value := v |}
      else if bool_decide (NoDup items)
      then {| error := None; value := v |}
      else {| error := Some (joiError "contains a duplicate value"); value := v |}
  | _ => {| error := Some (joiError "must be an array"); value := v |}
  end.
End Schema.

(** Wrap non-array value in an array, otherwise return original array. *)
Definition valueToArray (input : jsval) : jsval :=
  match input with
  | Arr _ => input
  | _ => Arr [input]
  end.

(** Modelled from the spec: [stripLokiProperties] of [lib/object.js], of
    which only the test is at hand; it returns the document without its
    storage-owned [$loki] and [meta] properties. *)
Definition stripLokiProperties (doc : record) : record :=
  delete "$loki" (delete "meta" doc).

(** [array.forEach(f)] for a callback that may throw. *)
Fixpoint forEach {S A} (l : list A) (f : A → M S unit) : M S unit :=
  match l with
  | [] => ret tt
  | x :: l' => f x ;; forEach l' f
  end.

(** ** The document collection engine *)

(** Modelled from the spec: the collection engine is an external library,
    used through [get], [by], [insert], [update], [remove] and, on the
    database, [getCollection], [addCollection] and [removeCollection].  A
    collection holds its live documents in insertion order, assigns
    increasing positive identifiers, and refuses an insert or update that
    would make two live documents share a value other than [null] or
    [undefined] on a unique field.  Metadata is written by the engine on
    insertion and left alone afterwards; time stamps are not modelled. *)
Module Loki.

Record Collection : Type := {
  data : list record;
  uniqueNames : list string;
  binaryIndices : list string;
  maxId : Z
}.

Definition withData (c : Collection) (d : list record) (m : Z) : Collection :=
  {| data := d; uniqueNames := uniqueNames c;
     binaryIndices := binaryIndices c; maxId := m |}.

Definition count (c : Collection) : nat := length (data c).

Definition freshMeta : jsval :=
  Obj {[ "revision" := Num 0; "created" := Num 0; "version" := Num 0 ]}.

(** Modelled from the spec: position and document of the live document
    with identifier [id]; identifiers are numbers. *)
Definition locate (id : jsval) (c : Collection) : option (nat * record) :=
  match id with
  | Num _ => list_find (λ r, r !! "$loki" = Some id) (data c)
  | _ => None
  end.

(** Modelled from the spec: [collection.get(id)], the document or [null]. *)
Definition get (id : jsval) (c : Collection) : option record :=
  snd <$> locate id c.

(** [r] holds the indexed value [v] at [field]. *)
Definition holds (field : string) (v : jsval) (r : record) : Prop :=
  nullish v = false ∧ prop r field = v.

#[global] Instance holds_dec field v r : Decision (holds field v r).
Proof. unfold holds. apply _. Defined.

(** Modelled from the spec: [collection.by(field, value)], lookup through
    the unique index of [field]; a field without one is a [TypeError]. *)
Definition by_ (field : string) (v : jsval) : M Collection (option record) :=
  λ c,
    if bool_decide (field ∈ uniqueNames c)
    then (Ok (snd <$> list_find (holds field v) (data c)), c)
    else (Throw (TypeError "Cannot read property 'get' of undefined"), c).

(** The first unique field on which [r] would collide with one of
    [others]. *)
Definition duplicateKey (r : record) (others : list record)
    (names : list string) : option string :=
  snd <$> list_find (λ f, Exists (holds f (prop r f)) others) names.

Definition duplicateError (f : string) (r : record) : exn :=
  EngineError ("Duplicate key for property " +:+ f +:+ ": " +:+ toString (prop r f)).

(** Modelled from the spec: the document as stored by an insert, with the
    identifier and the metadata the engine gives it. *)
Definition stamp (id : Z) (doc : record) : record :=
  <["$loki" := Num id]> (<["meta" := freshMeta]> doc).

(** Modelled from the spec: [collection.insert(doc)] for one document.  A
    document that already carries an identifier is refused, and so is one
    that collides with a live document on a unique field. *)
Definition insert (doc : record) : M Collection record := λ c,
  if negb (bool_decide (prop doc "$loki" = Undefined))
  then (Throw (EngineError "Document is already in collection, please use update()"), c)
  else
    let obj := stamp (maxId c + 1) doc in
    match duplicateKey obj (data c) (uniqueNames c) with
    | Some f => (Throw (duplicateError f obj), c)
    | None => (Ok obj, withData c (data c ++ [obj]) (maxId c + 1))
    end.

(** Modelled from the spec: [collection.insert(docs)] for an array, one by
    one, in order; the documents inserted before a refusal stay. *)
Fixpoint insertArray (docs : list record) : M Collection (list record) :=
  match docs with
  | [] => ret []
  | doc :: docs' =>
      let* obj := insert doc in
      let* objs := insertArray docs' in
      ret (obj :: objs)
  end.

(** Modelled from the spec: [collection.update(doc)] replaces the live
    document that has the identifier of [doc], unless [doc] collides with
    another live document on a unique field. *)
Definition update (doc : record) : M Collection record := λ c,
  match doc !! "$loki" with
  | None => (Throw (EngineError "Trying to update unsynced document"), c)
  | Some id =>
      match locate id c with
      | None => (Throw (EngineError "Trying to update a document not in collection."), c)
      | Some (i, _) =>
          match duplicateKey doc (delete i (data c)) (uniqueNames c) with
          | Some f => (Throw (duplicateError f doc), c)
          | None => (Ok doc, withData c (<[i := doc]> (data c)) (maxId c))
          end
      end
  end.

(** Modelled from the spec: [collection.remove(doc)]. *)
Definition remove (doc : record) : M Collection record := λ c,
  match locate (prop doc "$loki") c with
  | None => (Throw (EngineError "Object is not a document stored in the collection"), c)
  | Some (i, _) => (Ok doc, withData c (delete i (data c)) (maxId c))
  end.

Abbreviation Db := (gmap string Collection).

(** Modelled from the spec: [db.getCollection(name)], the collection or
    [null]. *)
Definition getCollection (name : string) : M Db (option Collection) :=
  gets (λ db, db !! name).

Definition emptyCollection (unique : list string) : Collection :=
  {| data := []; uniqueNames := unique; binaryIndices := []; maxId := 0 |}.

(** Modelled from the spec: [db.addCollection(name, { unique })]; a naming
    collision is an error. *)
Definition addCollection (name : string) (unique : list string) : M Db Collection :=
  λ db,
    match db !! name with
    | Some _ => (Throw (EngineError "collection already exists"), db)
    | None => (Ok (emptyCollection unique), <[name := emptyCollection unique]> db)
    end.

(** Modelled from the spec: [db.removeCollection(name)]. *)
Definition removeCollection (name : string) : M Db unit :=
  λ db, (Ok tt, delete name db).

(** A method call on the collection that [db.getCollection(name)]
    returns; calling it on [null] is a [TypeError]. *)
Definition on {A} (name : string) (m : M Collection A) : M Db A := λ db,
  match db !! name with
  | None => (Throw (TypeError "Cannot read property of null"), db)
  | Some c => let '(r, c') := m c in (r, <[name := c']> db)
  end.

End Loki.
Import Loki.

(** ** [lib/collection.js] *)

(** Names of properties with binary index. *)
Definition indexedProperties (collection : Collection) : list string :=
  binaryIndices collection.

(** Names of properties with unique value constraint. *)
Definition uniqueProperties (collection : Collection) : list string :=
  uniqueNames collection.

(** Check if collection enforces unique value constraint on properties.
    Callers pass the keys as an array: [valueToArray] has been applied. *)
Definition hasUniqueProperties (collection : Collection)
    (uniqueKeys : list string) : bool :=
  bool_decide (length (difference uniqueKeys (uniqueNames collection)) = 0%nat).

(** *** Extension methods for collection *)
Section extensionMethods.
Variable objectSchema : schema record.

(** Find object with given ID. *)
Definition getByID (id : jsval) : M Collection record := λ c,
  if negb (truthy id) || bool_decide (is_Some (error (lokiID id)))
  then throw (ValidationError None ∅) c
  else
    match get id c with
    | None => throw (ObjectNotFoundError None ∅) c
    | Some doc => ret doc c
    end.

(** Remove object whose unique field value match given value. *)
Definition removeBy (field : string) (v : jsval) : M Collection unit :=
  let* doc := by_ field v in
  match doc with
  | Some d => remove d ;; ret tt
  | None => ret tt
  end.

(** Update if object existed in collection, insert otherwise. *)
Definition upsert (doc : record) : M Collection record := λ c,
  let id := prop doc "$loki" in
  if truthy id && bool_decide (is_Some (get id c))
  then update doc c
  else insert (stripLokiProperties doc) c.

(** Validate object with collection's object schema. *)
Definition validateObjectSchema (doc : record) : M Collection record :=
  let r := objectSchema doc in
  match error r with
  | Some e => throw (ValidationError None (pick e ["details"; "anotate"]))
  | None => ret (value r)
  end.

Definition duplicateKeyError (key : string) (keyValue : jsval) : exn :=
  ValidationError
    (Some ("Duplicate key for property " +:+ key +:+ ": " +:+ toString keyValue))
    {[ "key" := Str key; "value" := keyValue ]}.

(** The callback of [validateUniqueProperties] for one unique field. *)
Definition checkUniqueProperty (doc : record) (existing : option record)
    (key : string) : M Collection unit :=
  let keyValue := prop doc key in
  let equalExisting :=
    match existing with
    | Some e => truthy (prop e key) && isEqual keyValue (prop e key)
    | None => false
    end in
  if truthy keyValue && negb equalExisting
  then
    let* found := by_ key keyValue in
    match found with
    | Some _ => throw (duplicateKeyError key keyValue)
    | None => ret tt
    end
  else ret tt.

(** Check if object contains duplicated value on unique constraints. *)
Definition validateUniqueProperties (doc : record) (existing : option record)
    : M Collection bool :=
  (let* names := gets uniqueNames in
   if bool_decide (0 < length names)%nat
   then forEach names (checkUniqueProperty doc existing)
   else ret tt) ;;
  ret true.

(** Validate object against object schema and unique constraint then
    insert if valid. *)
Definition validateAndInsert (doc : record) : M Collection record :=
  let* validated := validateObjectSchema doc in
  validateUniqueProperties doc None ;;
  insert validated.

(** Replace existing object with given one. *)
Definition validateAndReplace (doc : record) : M Collection record :=
  let id := prop doc "$loki" in
  let* existing := getByID id in
  let* validated := validateObjectSchema doc in
  validateUniqueProperties validated (Some existing) ;;
  let updated := assign validated (pick existing ["$loki"; "meta"]) in
  update updated.

(** Patch existing object with given one. *)
Definition validateAndPatch (doc : record) : M Collection record :=
  let id := prop doc "$loki" in
  let* existing := getByID id in
  validateUniqueProperties doc (Some existing) ;;
  let patched := defaultsDeep (pick existing ["$loki"; "meta"]) [doc; existing] in
  validateObjectSchema patched ;;
  update patched.

(** Remove object with given id. *)
Definition removeByID (id : jsval) : M Collection record :=
  let* doc := getByID id in
  let clone := cloneDeep doc in
  remove doc ;;
  ret clone.

End extensionMethods.

(** *** The initializer *)

(** The members of an initializer and its four overridable hooks. *)
Record initializer : Type := {
  collectionName : string;
  uniqueKeys : list string;
  collectionSchema : schema (list record);
  objectSchema : schema record;
  preCreate : M Db unit;
  postCreate : M Db unit;
  preRebuild : M Db unit;
  postRebuild : M Db unit
}.

(** Check if existing collection should be rebuilt. *)
Definition shouldRebuild (this : initializer) : M Db bool :=
  let* existingCollection := getCollection (collectionName this) in
  ret (negb match existingCollection with
            | Some c => hasUniqueProperties c (uniqueKeys this)
            | None => false
            end).

(** Create new collection with given constraint assume no existing
    collection. *)
Definition create (this : initializer) : M Db unit :=
  preCreate this ;;
  addCollection (collectionName this) (uniqueKeys this) ;;
  postCreate this.

Definition rebuildError (name : string) : exn :=
  ValidationError
    (Some ("unable to rebuild " +:+ name +:+ " collection: invalid existing data")) ∅.

(** Remove and recreate collection then attempt to insert data back in
    afterward. *)
Definition rebuild (this : initializer) : M Db unit :=
  preRebuild this ;;
  let* existingCollection := getCollection (collectionName this) in
  match existingCollection with
  | None => create this
  | Some c =>
      let existingData := collectionSchema this (stripLokiProperties <$> data c) in
      match error existingData with
      | Some _ => throw (rebuildError (collectionName this))
      | None =>
          removeCollection (collectionName this) ;;
          create this ;;
          on (collectionName this) (insertArray (value existingData)) ;;
          ret tt
      end
  end ;;
  postRebuild this.

(** Validate and attempt to fix target collection; create new collection if
    not exist.  The collection returned is the one the extension methods
    above are then called on, with this initializer's [objectSchema]. *)
Definition initialize (this : initializer) : M Db Collection :=
  let* should := shouldRebuild this in
  (if should : bool then rebuild this else ret tt) ;;
  let* collection := getCollection (collectionName this) in
  match collection with
  | Some c => ret c
  | None => throw (TypeError "Cannot convert undefined or null to object")
  end.

(** The strings of an array of strings. *)
Definition stringItems (v : jsval) : list string :=
  match v with
  | Arr items => omap (λ x, match x with Str s => Some s | _ => None end) items
  | _ => []
  end.

(** The hooks as [initializationMethods] defines them: a debug line. *)
Definition notImplemented : M Db unit := ret tt.

(** The factory.  The database handle [db] is the store the computation
    runs on; a parameter left out takes its default. *)
Definition Initializer (collectionName : string) (_uniqueKeys : jsval)
    (collectionSchema : option (schema (list record)))
    (objectSchema : option (schema record)) : M Db initializer :=
  let _uniqueKeys := match _uniqueKeys with Undefined => Arr [] | v => v end in
  let validatedUniqueKeys := Schema.uniqueKeys (valueToArray _uniqueKeys) in
  match error validatedUniqueKeys with
  | Some _ => throw (ValidationError (Some "invalid uniqueKeys") ∅)
  | None =>
      ret {| collectionName := collectionName;
             uniqueKeys := stringItems (value validatedUniqueKeys);
             collectionSchema := default Joi.any collectionSchema;
             objectSchema := default Joi.any objectSchema;
             preCreate := notImplemented;
             postCreate := notImplemented;
             preRebuild := notImplemented;
             postRebuild := notImplemented |}
  end.

(** ** Clients and invariants used in the statements below *)

(** An initializer as the factory makes it: no hook is overridden. *)
Definition defaultHooks (this : initializer) : Prop :=
  preCreate this = notImplemented ∧ postCreate this = notImplemented ∧
  preRebuild this = notImplemented ∧ postRebuild this = notImplemented.

(** The documents of an array as a fresh collection stores them. *)
Definition stamped (docs : list record) : list record :=
  imap (λ i doc, stamp (Z.of_nat i + 1) doc) docs.

(** I1 for the fields [U]: no two live documents, at distinct positions,
    share a value other than [null] and [undefined] on a field of [U]. *)
Definition uniqueOn (U : list string) (docs : list record) : Prop :=
  ∀ i j r1 r2 f,
    i ≠ j → docs !! i = Some r1 → docs !! j = Some r2 → f ∈ U →
    ¬ (nullish (prop r1 f) = false ∧ prop r2 f = prop r1 f).

(** Live documents carry the identifiers the engine gave them: positive
    and at most [maxId]. *)
Definition wellFormed (c : Collection) : bool :=
  (0 <=? maxId c)
  && forallb (λ r, match r !! "$loki" with
                   | Some (Num n) => (1 <=? n) && (n <=? maxId c)
                   | _ => false
                   end) (data c).

(** The collection enforces the fields [U] and satisfies I1 for them. *)
Definition enforced (U : list string) (c : Collection) : Prop :=
  (∀ f, f ∈ U → f ∈ uniqueNames c) ∧ uniqueOn U (data c).

(** A method keeps the invariant [P], whether it returns or throws. *)
Definition keeps (P : Collection → Prop) {A} (m : M Collection A) : Prop :=
  ∀ c, P c → P (m c).2.

(** The mutations a client can ask of an initialized collection. *)
Inductive operation : Type :=
| ValidateAndInsert (doc : record)
| ValidateAndReplace (doc : record)
| ValidateAndPatch (doc : record)
| Upsert (doc : record)
| RemoveByID (id : jsval).

Definition perform (objectSchema : schema record) (op : operation)
    : M Collection record :=
  match op with
  | ValidateAndInsert doc => validateAndInsert objectSchema doc
  | ValidateAndReplace doc => validateAndReplace objectSchema doc
  | ValidateAndPatch doc => validateAndPatch objectSchema doc
  | Upsert doc => upsert doc
  | RemoveByID id => removeByID id
  end.

(** The collection after a sequence of operations; the client carries on
    after an operation that throws. *)
Definition performAll (objectSchema : schema record) (ops : list operation)
    (c : Collection) : Collection :=
  foldl (λ c op, (perform objectSchema op c).2) c ops.

(** The test [validateUniqueProperties] makes for one unique field: a truthy
    value, not the one of [existing], that a live document holds. *)
Definition collision (doc : record) (existing : option record) (c : Collection)
    (key : string) : bool :=
  truthy (prop doc key)
  && negb match existing with
          | Some e => truthy (prop e key) && isEqual (prop doc key) (prop e key)
          | None => false
          end
  && bool_decide (Exists (holds key (prop doc key)) (data c)).

(** The unique-keys inputs the factory accepts, in words: nothing at all, one
    non-empty string, or an array of non-empty strings without
    duplicates. *)
Definition acceptableUniqueKeys (input : jsval) : bool :=
  match input with
  | Undefined => true
  | Str s => negb (bool_decide (s = ""))
  | Arr items =>
      forallb (λ x, match x with Str s => negb (bool_decide (s = "")) | _ => false end) items
      && bool_decide (NoDup items)
  | _ => false
  end.

(** The keys such an input names. *)
Definition namedKeys (input : jsval) : list string :=
  match input with
  | Str s => [s]
  | _ => stringItems input
  end.

(** *** The merge rule of a patch, in words

    The properties of a value: those of a plain object, and for an array
    its elements under their indices. *)
Definition property (v : jsval) (k : string) : jsval :=
  match v with
  | Obj m => prop m k
  | Arr l => element l k
  | _ => Undefined
  end.

Definition hasProperty (v : jsval) (k : string) : Prop :=
  match v with
  | Obj m => is_Some (m !! k)
  | Arr l => ∃ i, (i < length l)%nat ∧ k = pretty i
  | _ => False
  end.

(** One more than the last array index that [v] has an element or a
    property at. *)
Definition indices (v : jsval) : nat :=
  match v with
  | Arr l => length l
  | Obj m => extent m
  | _ => 0%nat
  end.

(** [patched p e r]: [r] is what a patch leaves where the patch holds [p]
    and the existing document holds [e] ([undefined] standing for a property
    that is not there).
    - The patch holds nothing: the existing value stays.
    - The patch holds a value and one of the two is no object or array: the
      patch's value.
    - The patch holds a plain object and the existing document an object or
      array: a plain object with the properties of either, each patched in
      the same way.
    - The patch holds an array and the existing document an object or
      array: an array that reaches as far as the indices of either, each
      element patched in the same way. *)
Inductive patched : jsval → jsval → jsval → Prop :=
| patched_absent (e : jsval) :
    patched Undefined e e
| patched_value (p e : jsval) :
    p ≠ Undefined → isObject p && isObject e = false →
    patched p e p
| patched_object (m r : gmap string jsval) (e : jsval) :
    isObject e = true →
    (∀ k, is_Some (r !! k) ↔ is_Some (m !! k) ∨ hasProperty e k) →
    (∀ k, patched (prop m k) (property e k) (prop r k)) →
    patched (Obj m) e (Obj r)
| patched_array (l r : list jsval) (e : jsval) :
    isObject e = true →
    length r = Nat.max (length l) (indices e) →
    (∀ i, (i < length r)%nat →
          patched (default Undefined (l !! i)) (property e (pretty i))
            (default Undefined (r !! i))) →
    patched (Arr l) e (Arr r).

(** ** The rest of the engine interface, and [lib/db.js] *)

(** Modelled from the spec: [collection.clear()] removes every document.
    The constraints stay and identifiers start again at 1, as the tests of
    [upsert] rely on. *)
Definition clear : M Collection unit := λ c, (Ok tt, withData c [] 0).

(** Remove all collections in database.  The collections of a database are
    the entries of the store, so [db.collections] is always there. *)
Definition clearDatabase : M Db unit := λ db,
  let collectionNames := (map_to_list db).*1 in
  forEach collectionNames removeCollection db.

(** Remove all data in all collections. *)
Definition clearAllData : M Db unit := λ db,
  forEach (map_to_list db).*1 (λ name, on name clear) db.

(** No two live documents carry the same identifier. *)
Definition distinctIds (c : Collection) : Prop :=
  NoDup ((λ r : record, prop r "$loki") <$> data c).

(** Identifiers are as the engine assigns them: positive, at most [maxId],
    and distinct. *)
Definition sound (c : Collection) : Prop :=
  wellFormed c = true ∧ distinctIds c.

(** The operation is an upsert that updates, or a replace or a patch. *)
Definition updates (op : operation) (c : Collection) : bool :=
  match op with
  | ValidateAndReplace _ | ValidateAndPatch _ => true
  | Upsert doc => truthy (prop doc "$loki") && bool_decide (is_Some (get (prop doc "$loki") c))
  | ValidateAndInsert _ | RemoveByID _ => false
  end.

(** ** A size for values, for induction through nested arrays and objects *)



(** ** Fixtures: the data of the test suite *)

(** A collection schema in the manner of the tests: every document must
    carry a number at [name]. *)
Definition numericNames : schema (list record) := λ docs,
  {| error := if forallb (λ d, match prop d "name" with Num _ => true | _ => false end) docs
              then None else Some (joiError "name must be a number");
     value := docs |}.

Definition testsInitializer (keys : list string)
    (collectionSchema : schema (list record)) : initializer :=
  {| collectionName := "TESTS"; uniqueKeys := keys;
     collectionSchema := collectionSchema; objectSchema := Joi.any;
     preCreate := notImplemented; postCreate := notImplemented;
     preRebuild := notImplemented; postRebuild := notImplemented |}.

Definition john : record := {[ "name" := Str "john"; "content" := Str "smith" ]}.
Definition julius : record := {[ "name" := Str "julius"; "content" := Str "caesar" ]}.
Definition travolta : record := {[ "name" := Str "john"; "content" := Str "travolta" ]}.

(** [db.addCollection('TESTS').insert(docs)] on an empty database. *)
Definition testsDb (docs : list record) : Db :=
  {[ "TESTS" := (insertArray docs (emptyCollection [])).2 ]}.


(** The object schema of the tests: [slug] is a required non-empty string,
    [content] a string, [isDisabled] a boolean that defaults to [false];
    unknown properties are allowed. *)
Definition slugSchema : schema record := λ doc,
  let slugOk := match prop doc "slug" with
                | Str s => negb (bool_decide (s = ""))
                | _ => false
                end in
  let contentOk := match prop doc "content" with
                   | Str _ | Undefined => true
                   | _ => false
                   end in
  let disabledOk := match prop doc "isDisabled" with
                    | Bool _ | Undefined => true
                    | _ => false
                    end in
  if slugOk && contentOk && disabledOk
  then {| error := None;
          value := match prop doc "isDisabled" with
                   | Undefined => <["isDisabled" := Bool false]> doc
                   | _ => doc
                   end |}
  else {| error := Some (joiError "invalid object"); value := doc |}.

(** The same requirements, without the default. *)
Definition slugSchemaNoDefault : schema record := λ doc,
  {| error := error (slugSchema doc); value := doc |}.

Definition slugA : record := {[ "slug" := Str "a"; "content" := Str "123" ]}.
Definition slugB : record := {[ "slug" := Str "b"; "content" := Str "456" ]}.

(** The collection the extension-method tests start from. *)
Definition slugs : Collection :=
  (insertArray [slugA; slugB] (emptyCollection ["slug"])).2.



(** A collection with two unique fields, one document holding [0]. *)
Definition uniques : Collection :=
  (insertArray [ {[ "u1" := Num 0; "u2" := Str "a" ]};
                 {[ "u1" := Num 2; "u2" := Str "b" ]} ]
     (emptyCollection ["u1"; "u2"])).2.
(** ** Basic facts *)

(** Closed equations between results are settled by evaluation. *)
Ltac computes :=
  lazymatch goal with
  | |- @eq ?T ?x ?y => vm_cast_no_check (@eq_refl T y)
  end.

Lemma lookup_pick (o : record) (keys : list string) (k : string) :
  pick o keys !! k = if decide (k ∈ keys) then o !! k else None.
Proof.
  unfold pick. destruct (decide (k ∈ keys)) as [Hin|Hnin].
  - destruct (o !! k) as [v|] eqn:Hk.
    + apply map_lookup_filter_Some. by split.
    + apply map_lookup_filter_None. left. done.
  - apply map_lookup_filter_None. right. intros v _. simpl. done.
Qed.

Lemma storage_field (k : string) :
  k ∈ ["$loki"; "meta"] ↔ k = "$loki" ∨ k = "meta".
Proof. rewrite !elem_of_cons, elem_of_nil. tauto. Qed.

Lemma pick_storage_field (o : record) (k : string) :
  k = "$loki" ∨ k = "meta" → pick o ["$loki"; "meta"] !! k = o !! k.
Proof. intros Hk. rewrite lookup_pick, decide_True; [done|]. by apply storage_field. Qed.


Lemma lookup_assign (a b : record) (k : string) :
  assign a b !! k = match b !! k with Some v => Some v | None => a !! k end.
Proof.
  unfold assign. destruct (b !! k) as [v|] eqn:Hb.
  - by apply lookup_union_Some_l.
  - by rewrite lookup_union_r.
Qed.






Lemma lookup_stripLokiProperties (doc : record) (k : string) :
  stripLokiProperties doc !! k =
    if decide (k = "$loki" ∨ k = "meta") then None else doc !! k.
Proof.
  unfold stripLokiProperties. rewrite !lookup_delete.
  destruct (decide ("$loki" = k)), (decide ("meta" = k)),
    (decide (k = "$loki" ∨ k = "meta")); subst; try done; exfalso; intuition congruence.
Qed.

Lemma strip_stamp (id : Z) (doc : record) :
  stripLokiProperties (stamp id doc) = stripLokiProperties doc.
Proof.
  apply map_eq. intros k. rewrite !lookup_stripLokiProperties.
  case_decide as Hk; [done|]. unfold stamp.
  rewrite !lookup_insert_ne; naive_solver.
Qed.

Lemma prop_stamp_loki (id : Z) (doc : record) : prop (stamp id doc) "$loki" = Num id.
Proof. unfold prop, stamp. by rewrite lookup_insert_eq. Qed.

Lemma prop_stamp_meta (id : Z) (doc : record) : prop (stamp id doc) "meta" = freshMeta.
Proof. unfold prop, stamp. rewrite lookup_insert_ne by done. by rewrite lookup_insert_eq. Qed.


(** ** Induction on values *)




(** ** Array indices and the deep merge *)









Lemma customDefaultsMerge_nothing (v : jsval) : customDefaultsMerge v Undefined = v.
Proof. by destruct v. Qed.









(** ** Running the methods *)

Ltac run := unfold bind, ret, throw, gets in *; cbn beta iota in *.

Lemma by_state (field : string) (v : jsval) (c : Collection) :
  (by_ field v c).2 = c.
Proof. unfold by_. by case_bool_decide. Qed.

Lemma getByID_state (id : jsval) (c : Collection) : (getByID id c).2 = c.
Proof.
  unfold getByID. destruct (_ || _); [done|]. by destruct (get id c).
Qed.

Lemma getByID_Ok (id : jsval) (c c' : Collection) (doc : record) :
  getByID id c = (Ok doc, c') →
  c' = c ∧ get id c = Some doc ∧ truthy id = true ∧ error (lokiID id) = None.
Proof.
  unfold getByID. destruct (truthy id); simpl; [|by inversion 1].
  case_bool_decide as Hid; [by inversion 1|].
  destruct (get id c) as [d|]; run; inversion 1; subst.
  repeat split; try done. destruct (error (lokiID id)); [|done].
  exfalso. apply Hid. eauto.
Qed.

Lemma checkUniqueProperty_state (doc : record) (existing : option record)
    (key : string) (c : Collection) :
  (checkUniqueProperty doc existing key c).2 = c.
Proof.
  unfold checkUniqueProperty. destruct (_ && _); [|done]. run.
  pose proof (by_state key (prop doc key) c) as Hby.
  destruct (by_ key (prop doc key) c) as [[[found|]|e] c1]; simpl in *; by subst.
Qed.

Lemma forEach_checkUniqueProperty_state (doc : record) (existing : option record)
    (names : list string) (c : Collection) :
  (forEach names (checkUniqueProperty doc existing) c).2 = c.
Proof.
  induction names as [|key names IH]; [done|]. simpl. run.
  pose proof (checkUniqueProperty_state doc existing key c) as Hk.
  destruct (checkUniqueProperty doc existing key c) as [[[]|e] c1]; simpl in *; by subst.
Qed.

(** The uniqueness check reads the collection and leaves it as it is; it
    returns [true] or throws. *)
Lemma validateUniqueProperties_state (doc : record) (existing : option record)
    (c : Collection) :
  (validateUniqueProperties doc existing c).2 = c.
Proof.
  unfold validateUniqueProperties. run. case_bool_decide; [|done].
  pose proof (forEach_checkUniqueProperty_state doc existing (uniqueNames c) c) as Hk.
  destruct (forEach _ _ c) as [[[]|e] c1]; simpl in *; by subst.
Qed.

Lemma validateUniqueProperties_result (doc : record) (existing : option record)
    (c : Collection) :
  validateUniqueProperties doc existing c = (Ok true, c)
  ∨ ∃ e, validateUniqueProperties doc existing c = (Throw e, c).
Proof.
  pose proof (validateUniqueProperties_state doc existing c) as Hst.
  destruct (validateUniqueProperties doc existing c) as [[b|e] c1] eqn:Hrun;
    simpl in Hst; subst; [left|right; eauto].
  revert Hrun. unfold validateUniqueProperties. run.
  case_bool_decide; [destruct (forEach _ _ c) as [[[]|e] c1]|]; by inversion 1.
Qed.

Lemma validateObjectSchema_run (objectSchema : schema record) (doc : record)
    (c : Collection) :
  validateObjectSchema objectSchema doc c =
    match error (objectSchema doc) with
    | Some e => (Throw (ValidationError None (pick e ["details"; "anotate"])), c)
    | None => (Ok (value (objectSchema doc)), c)
    end.
Proof. unfold validateObjectSchema. by destruct (error (objectSchema doc)). Qed.

Lemma insert_Ok (doc r : record) (c c' : Collection) :
  insert doc c = (Ok r, c') →
  prop doc "$loki" = Undefined
  ∧ r = stamp (maxId c + 1) doc
  ∧ duplicateKey r (data c) (uniqueNames c) = None
  ∧ c' = withData c (data c ++ [r]) (maxId c + 1).
Proof.
  unfold insert. case_bool_decide as Hid; simpl; [|by inversion 1].
  destruct (duplicateKey _ _ _) eqn:Hdup; inversion 1; subst. done.
Qed.

Lemma update_Ok (doc r : record) (c c' : Collection) :
  update doc c = (Ok r, c') →
  r = doc ∧ ∃ id i old,
    doc !! "$loki" = Some id ∧ locate id c = Some (i, old)
    ∧ duplicateKey doc (delete i (data c)) (uniqueNames c) = None
    ∧ c' = withData c (<[i := doc]> (data c)) (maxId c).
Proof.
  unfold update. destruct (doc !! "$loki") as [id|]; [|by inversion 1].
  destruct (locate id c) as [[i old]|] eqn:Hloc; [|by inversion 1].
  destruct (duplicateKey _ _ _) eqn:Hdup; inversion 1; subst.
  split; [done|]. by exists id, i, old.
Qed.

Lemma locate_Some (id : jsval) (c : Collection) (i : nat) (r : record) :
  locate id c = Some (i, r) → data c !! i = Some r ∧ r !! "$loki" = Some id.
Proof.
  unfold locate. destruct id; try done. intros H.
  apply list_find_Some in H as (Hi & Hid & _). done.
Qed.

(** A successful patch, step by step. *)
Lemma validateAndPatch_Ok (objectSchema : schema record) (doc r : record)
    (c c' : Collection) :
  validateAndPatch objectSchema doc c = (Ok r, c') →
  ∃ existing,
    get (prop doc "$loki") c = Some existing
    ∧ validateUniqueProperties doc (Some existing) c = (Ok true, c)
    ∧ error (objectSchema (defaultsDeep (pick existing ["$loki"; "meta"]) [doc; existing])) = None
    ∧ r = defaultsDeep (pick existing ["$loki"; "meta"]) [doc; existing]
    ∧ update r c = (Ok r, c').
Proof.
  unfold validateAndPatch. unfold bind at 1.
  destruct (getByID _ c) as [[existing|e] c1] eqn:Hget; [|by inversion 1].
  apply getByID_Ok in Hget as (-> & Hget & _). unfold bind at 1.
  destruct (validateUniqueProperties_result doc (Some existing) c) as [Hu|[e Hu]];
    rewrite Hu; [|by inversion 1].
  unfold bind at 1. rewrite validateObjectSchema_run.
  destruct (error (objectSchema _)) eqn:Hschema; [by inversion 1|].
  intros Hupd. exists existing. repeat split; try done.
  - by apply update_Ok in Hupd as [-> _].
  - apply update_Ok in Hupd as Hr. destruct Hr as [-> _]. done.
Qed.

(** A successful replacement, step by step. *)
Lemma validateAndReplace_Ok (objectSchema : schema record) (doc r : record)
    (c c' : Collection) :
  validateAndReplace objectSchema doc c = (Ok r, c') →
  ∃ existing,
    get (prop doc "$loki") c = Some existing
    ∧ error (objectSchema doc) = None
    ∧ validateUniqueProperties (value (objectSchema doc)) (Some existing) c = (Ok true, c)
    ∧ r = assign (value (objectSchema doc)) (pick existing ["$loki"; "meta"])
    ∧ update r c = (Ok r, c').
Proof.
  unfold validateAndReplace. unfold bind at 1.
  destruct (getByID _ c) as [[existing|e] c1] eqn:Hget; [|by inversion 1].
  apply getByID_Ok in Hget as (-> & Hget & _). unfold bind at 1.
  rewrite validateObjectSchema_run.
  destruct (error (objectSchema doc)) eqn:Hschema; [by inversion 1|].
  unfold bind at 1.
  destruct (validateUniqueProperties_result (value (objectSchema doc)) (Some existing) c)
    as [Hu|[e Hu]]; rewrite Hu; [|by inversion 1].
  intros Hupd. exists existing. repeat split; try done.
  - by apply update_Ok in Hupd as [-> _].
  - apply update_Ok in Hupd as Hr. destruct Hr as [-> _]. done.
Qed.

(** A successful validated insert, step by step. *)
Lemma validateAndInsert_Ok (objectSchema : schema record) (doc r : record)
    (c c' : Collection) :
  validateAndInsert objectSchema doc c = (Ok r, c') →
  error (objectSchema doc) = None
  ∧ validateUniqueProperties doc None c = (Ok true, c)
  ∧ insert (value (objectSchema doc)) c = (Ok r, c').
Proof.
  unfold validateAndInsert. unfold bind at 1. rewrite validateObjectSchema_run.
  destruct (error (objectSchema doc)) eqn:Hschema; [by inversion 1|].
  unfold bind at 1.
  destruct (validateUniqueProperties_result doc None c) as [Hu|[e Hu]];
    rewrite Hu; [|by inversion 1].
  done.
Qed.

(** ** The uniqueness invariant *)

Lemma duplicateKey_None (r : record) (others : list record) (names : list string) :
  duplicateKey r others names = None ↔
  ∀ f r', f ∈ names → r' ∈ others → ¬ holds f (prop r f) r'.
Proof.
  unfold duplicateKey. rewrite fmap_None, list_find_None, Forall_forall.
  split.
  - intros Hall f r' Hf Hr' Hholds. apply (Hall f Hf).
    apply Exists_exists. eauto.
  - intros Hall f Hf Hex. apply Exists_exists in Hex as (r' & Hr' & Hholds).
    by apply (Hall f r').
Qed.

Lemma holds_sym (f : string) (r1 r2 : record) :
  holds f (prop r1 f) r2 → holds f (prop r2 f) r1.
Proof. unfold holds. intros [Hnn Heq]. rewrite Heq. done. Qed.

Lemma uniqueOn_nil (U : list string) : uniqueOn U [].
Proof. intros i j r1 r2 f _ H1. by rewrite lookup_nil in H1. Qed.

Lemma uniqueOn_snoc (U : list string) (docs : list record) (r : record) :
  uniqueOn U docs →
  (∀ f r', f ∈ U → r' ∈ docs → ¬ holds f (prop r f) r') →
  uniqueOn U (docs ++ [r]).
Proof.
  intros Hold Hnew i j r1 r2 f Hij H1 H2 Hf Hclash.
  apply lookup_snoc_Some in H1 as [[Hi H1]|[Hi <-]];
    apply lookup_snoc_Some in H2 as [[Hj H2]|[Hj <-]].
  - by apply (Hold i j r1 r2 f).
  - apply (Hnew f r1 Hf); [by eapply list_elem_of_lookup_2|].
    by apply (holds_sym f r1 r).
  - apply (Hnew f r2 Hf); [by eapply list_elem_of_lookup_2|]. done.
  - lia.
Qed.

Lemma elem_of_delete_other (docs : list record) (i j : nat) (r : record) :
  i ≠ j → docs !! j = Some r → r ∈ delete i docs.
Proof.
  intros Hij Hj. destruct (decide (j < i)%nat) as [Hlt|Hge].
  - apply (list_elem_of_lookup_2 _ j). by rewrite list_lookup_delete_lt.
  - destruct j as [|j]; [lia|].
    apply (list_elem_of_lookup_2 _ j). rewrite list_lookup_delete_ge by lia. done.
Qed.

Lemma uniqueOn_update (U : list string) (docs : list record) (i : nat) (r : record) :
  uniqueOn U docs →
  (∀ f r', f ∈ U → r' ∈ delete i docs → ¬ holds f (prop r f) r') →
  uniqueOn U (<[i := r]> docs).
Proof.
  intros Hold Hnew j k r1 r2 f Hjk H1 H2 Hf Hclash.
  apply list_lookup_insert_Some in H1 as [(<- & <- & Hi)|[Hij H1]];
    apply list_lookup_insert_Some in H2 as [(<- & <- & Hk)|[Hik H2]].
  - done.
  - apply (Hnew f r2 Hf); [by eapply elem_of_delete_other|]. done.
  - apply (Hnew f r1 Hf); [by eapply elem_of_delete_other|].
    by apply (holds_sym f r1 r).
  - by apply (Hold j k r1 r2 f).
Qed.

Lemma lookup_delete_position (docs : list record) (i j : nat) :
  delete i docs !! j = docs !! (if decide (j < i)%nat then j else S j).
Proof.
  case_decide.
  - by apply list_lookup_delete_lt.
  - apply list_lookup_delete_ge. lia.
Qed.

Lemma uniqueOn_delete (U : list string) (docs : list record) (i : nat) :
  uniqueOn U docs → uniqueOn U (delete i docs).
Proof.
  intros Hold j k r1 r2 f Hjk H1 H2.
  rewrite lookup_delete_position in H1, H2.
  eapply Hold; [|exact H1|exact H2]. repeat case_decide; lia.
Qed.

Lemma hasUniqueProperties_spec (c : Collection) (U : list string) :
  hasUniqueProperties c U = true ↔ ∀ f, f ∈ U → f ∈ uniqueNames c.
Proof.
  unfold hasUniqueProperties, difference. rewrite bool_decide_eq_true. split.
  - intros Hlen f Hf. apply nil_length_inv in Hlen.
    destruct (decide (f ∈ uniqueNames c)) as [|Hnin]; [done|].
    assert (f ∈ list_difference U (uniqueNames c)) as Hin
      by (by apply list_elem_of_difference).
    rewrite Hlen in Hin. by apply elem_of_nil in Hin.
  - intros Hsub. destruct (list_difference U (uniqueNames c)) as [|f l] eqn:Hd; [done|].
    assert (f ∈ list_difference U (uniqueNames c)) as Hin by (rewrite Hd; left).
    apply list_elem_of_difference in Hin as [Hf Hnin]. by destruct Hnin; apply Hsub.
Qed.

(** *** Invariants of the engine carry over to the methods *)

Section invariants.
Variable P : Collection → Prop.
Hypothesis P_insert : ∀ doc, keeps P (insert doc).
Hypothesis P_update : ∀ doc, keeps P (update doc).
Hypothesis P_remove : ∀ doc, keeps P (remove doc).

Lemma keeps_ret {A} (a : A) : keeps P (ret a).
Proof. by intros c Hc. Qed.

Lemma keeps_throw {A} (e : exn) : keeps P (@throw Collection A e).
Proof. by intros c Hc. Qed.

Lemma keeps_gets {A} (f : Collection → A) : keeps P (gets f).
Proof. by intros c Hc. Qed.

Lemma keeps_bind {A B} (m : M Collection A) (k : A → M Collection B) :
  keeps P m → (∀ a, keeps P (k a)) → keeps P (bind m k).
Proof.
  intros Hm Hk c Hc. unfold bind. specialize (Hm c Hc).
  destruct (m c) as [[a|e] c1]; simpl in *; [by apply Hk|done].
Qed.

Lemma keeps_unchanged {A} (m : M Collection A) :
  (∀ c, (m c).2 = c) → keeps P m.
Proof. intros Hm c Hc. by rewrite Hm. Qed.

Lemma keeps_getByID (id : jsval) : keeps P (getByID id).
Proof. apply keeps_unchanged, getByID_state. Qed.

Lemma keeps_validateUniqueProperties (doc : record) (existing : option record) :
  keeps P (validateUniqueProperties doc existing).
Proof. apply keeps_unchanged, validateUniqueProperties_state. Qed.

Lemma keeps_validateObjectSchema (objectSchema : schema record) (doc : record) :
  keeps P (validateObjectSchema objectSchema doc).
Proof.
  apply keeps_unchanged. intros c. rewrite validateObjectSchema_run.
  by destruct (error (objectSchema doc)).
Qed.

Lemma keeps_upsert (doc : record) : keeps P (upsert doc).
Proof.
  intros c Hc. unfold upsert. destruct (_ && _).
  - by apply P_update.
  - by apply P_insert.
Qed.

Lemma keeps_insertArray (docs : list record) : keeps P (insertArray docs).
Proof.
  induction docs as [|doc docs IH]; simpl; [apply keeps_ret|].
  apply keeps_bind; [apply P_insert|]. intros obj.
  apply keeps_bind; [apply IH|]. intros objs. apply keeps_ret.
Qed.

Create HintDb keeps.
#[local] Hint Resolve keeps_ret keeps_throw keeps_gets P_insert P_update
  P_remove keeps_getByID keeps_validateUniqueProperties
  keeps_validateObjectSchema keeps_upsert : keeps.

Lemma keeps_perform (objectSchema : schema record) (op : operation) :
  keeps P (perform objectSchema op).
Proof.
  destruct op as [doc|doc|doc|doc|id]; simpl;
    unfold validateAndInsert, validateAndReplace, validateAndPatch, removeByID;
    cbv zeta;
    repeat first [ solve [auto with keeps]
                 | apply keeps_bind; [|intros ?]; cbv zeta ].
Qed.

Lemma keeps_performAll (objectSchema : schema record) (ops : list operation)
    (c : Collection) :
  P c → P (performAll objectSchema ops c).
Proof.
  unfold performAll. revert c.
  induction ops as [|op ops IH]; intros c Hc; [done|].
  simpl. apply IH. by apply keeps_perform.
Qed.

End invariants.

(** *** The engine keeps I1 *)

Lemma enforced_insert (U : list string) (doc : record) : keeps (enforced U) (insert doc).
Proof.
  intros c [Hsub Huniq]. unfold insert.
  destruct (negb _); [done|].
  destruct (duplicateKey _ _ _) eqn:Hdup; [done|]. simpl. split; [done|].
  apply uniqueOn_snoc; [done|]. intros f r' Hf Hr'.
  rewrite duplicateKey_None in Hdup. apply Hdup; [by apply Hsub|done].
Qed.

Lemma enforced_update (U : list string) (doc : record) : keeps (enforced U) (update doc).
Proof.
  intros c [Hsub Huniq]. unfold update.
  destruct (doc !! "$loki") as [id|]; [|done].
  destruct (locate id c) as [[i old]|]; [|done].
  destruct (duplicateKey _ _ _) eqn:Hdup; [done|]. simpl. split; [done|].
  apply uniqueOn_update; [done|]. intros f r' Hf Hr'.
  rewrite duplicateKey_None in Hdup. apply Hdup; [by apply Hsub|done].
Qed.

Lemma enforced_remove (U : list string) (doc : record) : keeps (enforced U) (remove doc).
Proof.
  intros c [Hsub Huniq]. unfold remove.
  destruct (locate _ c) as [[i old]|]; [|done]. simpl. split; [done|].
  by apply uniqueOn_delete.
Qed.

(** *** The engine keeps identifiers well formed *)

Lemma wellFormed_spec (c : Collection) :
  wellFormed c = true ↔
  0 ≤ maxId c
  ∧ ∀ r, r ∈ data c → ∃ n, r !! "$loki" = Some (Num n) ∧ 1 ≤ n ≤ maxId c.
Proof.
  unfold wellFormed. rewrite andb_true_iff, Z.leb_le, forallb_forall.
  split; intros [Hmax Hall]; (split; [done|]).
  - intros r Hr. apply list_elem_of_In, Hall in Hr.
    destruct (r !! "$loki") as [[| |b|n|s|l|m]|]; try done.
    exists n. split; [done|]. lia.
  - intros r Hr. apply list_elem_of_In, Hall in Hr as (n & -> & Hn).
    apply andb_true_iff. split; [apply Z.leb_le|apply Z.leb_le]; lia.
Qed.

Lemma wellFormed_insert (doc : record) : keeps (λ c, wellFormed c = true) (insert doc).
Proof.
  intros c Hwf. unfold insert.
  destruct (negb _); [done|].
  destruct (duplicateKey _ _ _); [done|]. simpl.
  apply wellFormed_spec in Hwf as [Hmax Hall].
  apply wellFormed_spec. simpl. split; [lia|]. intros r Hr.
  apply elem_of_app in Hr as [Hr|Hr].
  - destruct (Hall r Hr) as (n & Hid & Hn). exists n. split; [done|]. lia.
  - apply list_elem_of_singleton in Hr as ->. exists (maxId c + 1).
    split; [|lia]. unfold stamp. by rewrite lookup_insert_eq.
Qed.

Lemma wellFormed_update (doc : record) : keeps (λ c, wellFormed c = true) (update doc).
Proof.
  intros c Hwf. unfold update.
  destruct (doc !! "$loki") as [id|] eqn:Hid; [|done].
  destruct (locate id c) as [[i old]|] eqn:Hloc; [|done].
  destruct (duplicateKey _ _ _); [done|]. simpl.
  apply wellFormed_spec in Hwf as [Hmax Hall].
  apply wellFormed_spec. simpl. split; [done|]. intros r Hr.
  apply list_elem_of_lookup_1 in Hr as [j Hj].
  apply list_lookup_insert_Some in Hj as [(<- & <- & Hi)|[Hij Hj]].
  - apply locate_Some in Hloc as [Hold Holdid].
    destruct (Hall old) as (n & Hn & Hbound); [by eapply list_elem_of_lookup_2|].
    exists n. split; [congruence|done].
  - apply Hall. by eapply list_elem_of_lookup_2.
Qed.

Lemma wellFormed_remove (doc : record) : keeps (λ c, wellFormed c = true) (remove doc).
Proof.
  intros c Hwf. unfold remove.
  destruct (locate _ c) as [[i old]|]; [|done]. simpl.
  apply wellFormed_spec in Hwf as [Hmax Hall].
  apply wellFormed_spec. simpl. split; [done|]. intros r Hr.
  apply Hall. by eapply list_elem_of_delete_inv.
Qed.

(** Every collection reached from a well-formed one, such as an empty one,
    is well formed. *)
Lemma wellFormed_performAll (objectSchema : schema record) (ops : list operation)
    (c : Collection) :
  wellFormed c = true → wellFormed (performAll objectSchema ops c) = true.
Proof.
  apply (keeps_performAll (λ c, wellFormed c = true));
    auto using wellFormed_insert, wellFormed_update, wellFormed_remove.
Qed.

(** C4 (uniqueness invariant): on a collection that enforces the unique
    fields [U] and satisfies I1 for them, every sequence of
    [validateAndInsert], [validateAndReplace], [validateAndPatch], [upsert]
    and [removeByID] calls, whatever their arguments and whether they
    return or throw, leaves a collection that still enforces [U] and
    satisfies I1: no two live documents share a value other than [null]
    and [undefined] on a field of [U]. *)
Theorem uniqueness_preserved (objectSchema : schema record) (U : list string)
    (ops : list operation) (c : Collection) :
  hasUniqueProperties c U = true →
  uniqueOn U (data c) →
  hasUniqueProperties (performAll objectSchema ops c) U = true
  ∧ uniqueOn U (data (performAll objectSchema ops c)).
Proof.
  intros Hhas Huniq.
  destruct (keeps_performAll (enforced U) (enforced_insert U) (enforced_update U)
              (enforced_remove U) objectSchema ops c) as [Hsub Huniq'].
  - split; [by apply hasUniqueProperties_spec|done].
  - split; [by apply hasUniqueProperties_spec|done].
Qed.

Lemma uniqueness_preserved_witness :
  let ops := [ ValidateAndInsert slugA; ValidateAndInsert slugB;
               Upsert {[ "slug" := Str "b" ]};
               ValidateAndPatch {[ "$loki" := Num 1; "slug" := Str "b" ]};
               ValidateAndReplace {[ "$loki" := Num 2; "slug" := Str "c" ]};
               RemoveByID (Num 1);
               Upsert {[ "slug" := Str "a" ]} ] in
  let c := performAll slugSchema ops (emptyCollection ["slug"]) in
  uniqueOn ["slug"] (data c)
  ∧ (λ r, r !! "slug") <$> data c = [Some (Str "c"); Some (Str "a")].
Proof.
  intros ops c. split.
  - apply (uniqueness_preserved slugSchema ["slug"] ops (emptyCollection ["slug"]));
      [reflexivity | apply uniqueOn_nil].
  - computes.
Defined.
(** ** Rebuild *)

(** C1 (rebuild atomicity): when the collection exists and its stripped data
    fails the collection schema, [rebuild] throws a [ValidationError] and
    the database is exactly as the [preRebuild] hook (a no-op unless
    overridden) left it: the collection is still there with the same
    documents, and neither [removeCollection] nor any later step ran,
    whatever the other hooks are. *)
Theorem rebuild_invalid_data_untouched (this : initializer) (db db1 : Db)
    (c : Collection) (e : record) :
  preRebuild this db = (Ok tt, db1) →
  db1 !! collectionName this = Some c →
  error (collectionSchema this (stripLokiProperties <$> data c)) = Some e →
  rebuild this db = (Throw (rebuildError (collectionName this)), db1)
  ∧ exn_name (rebuildError (collectionName this)) = "ValidationError"
  ∧ getCollection (collectionName this) db1 = (Ok (Some c), db1).
Proof.
  intros Hpre Hc Herr. split; [|split]; [|reflexivity|].
  - unfold rebuild, bind. rewrite Hpre. unfold getCollection, gets.
    rewrite Hc. cbn. rewrite Herr. reflexivity.
  - unfold getCollection, gets. by rewrite Hc.
Qed.

Lemma rebuild_invalid_data_untouched_witness :
  let this := testsInitializer [] numericNames in
  let db := testsDb [john] in
  rebuild this db = (Throw (rebuildError "TESTS"), db)
  ∧ exn_name (rebuildError "TESTS") = "ValidationError"
  ∧ ∃ c, getCollection "TESTS" db = (Ok (Some c), db) ∧ count c = 1%nat.
Proof.
  intros this db.
  destruct (rebuild_invalid_data_untouched this db db
              (insertArray [john] (emptyCollection [])).2
              (joiError "name must be a number"))
    as (H1 & H2 & H3); [reflexivity | reflexivity | reflexivity |].
  split; [exact H1 | split; [exact H2 |]].
  eexists. split; [exact H3 | reflexivity].
Defined.

Lemma strip_stamped (docs : list record) :
  stripLokiProperties <$> stamped docs = stripLokiProperties <$> docs.
Proof.
  unfold stamped. apply list_eq. intros i.
  rewrite !list_lookup_fmap, list_lookup_imap.
  destruct (docs !! i) as [doc|]; simpl; [|done]. by rewrite strip_stamp.
Qed.

Lemma strip_strip (docs : list record) :
  stripLokiProperties <$> (stripLokiProperties <$> docs) = stripLokiProperties <$> docs.
Proof.
  rewrite <- list_fmap_compose. apply list_fmap_ext. intros i doc _. simpl.
  apply map_eq. intros k. rewrite !lookup_stripLokiProperties. by case_decide.
Qed.

(** Replaying an array into a collection: if no document carries an
    identifier and the collection with the stamped documents added would
    satisfy I1, every insert is accepted. *)
Lemma insertArray_accepted (docs : list record) (c : Collection) :
  Forall (λ doc, prop doc "$loki" = Undefined) docs →
  uniqueOn (uniqueNames c)
    (data c ++ imap (λ i doc, stamp (maxId c + 1 + Z.of_nat i) doc) docs) →
  insertArray docs c =
    (Ok (imap (λ i doc, stamp (maxId c + 1 + Z.of_nat i) doc) docs),
     withData c (data c ++ imap (λ i doc, stamp (maxId c + 1 + Z.of_nat i) doc) docs)
       (maxId c + Z.of_nat (length docs))).
Proof.
  revert c. induction docs as [|doc docs IH]; intros c Hids Huniq.
  - simpl. unfold ret, withData. rewrite app_nil_r, Z.add_0_r. by destruct c.
  - apply Forall_cons in Hids as [Hid Hids].
    rewrite imap_cons in Huniq |- *. rewrite Z.add_0_r in Huniq |- *.
    set (obj := stamp (maxId c + 1) doc) in *.
    assert (insert doc c = (Ok obj, withData c (data c ++ [obj]) (maxId c + 1))) as Hins.
    { unfold insert. rewrite Hid, bool_decide_eq_true_2 by done. simpl. fold obj.
      assert (duplicateKey obj (data c) (uniqueNames c) = None) as ->; [|done].
      apply duplicateKey_None. intros f r' Hf Hr' Hholds.
      apply list_elem_of_lookup_1 in Hr' as [j Hj].
      apply (Huniq (length (data c)) j obj r' f).
      - apply lookup_lt_Some in Hj. intros <-. by apply Nat.lt_irrefl in Hj.
      - by rewrite lookup_app_r, Nat.sub_diag by lia.
      - by rewrite lookup_app_l by (by eapply lookup_lt_Some).
      - done.
      - done. }
    assert (imap ((λ i d, stamp (maxId c + 1 + Z.of_nat i) d) ∘ S) docs
            = imap (λ i d, stamp (maxId c + 1 + 1 + Z.of_nat i) d) docs) as Hshift.
    { apply imap_ext. intros i d _. simpl. f_equal. lia. }
    rewrite Hshift in Huniq |- *.
    simpl. unfold bind at 1. rewrite Hins. unfold bind at 1.
    rewrite (IH (withData c (data c ++ [obj]) (maxId c + 1))); simpl.
    + unfold ret, withData. simpl. rewrite <- app_assoc. simpl.
      f_equal. f_equal. lia.
    + done.
    + by rewrite <- app_assoc.
Qed.

(** C2 (rebuild data preservation), as stated, fails when the data passes
    the collection schema but breaks the configured unique constraint: with
    the default schema, two documents named [john] and the unique key
    [name], the collection is removed and recreated, the engine refuses the
    second insert, and [rebuild] throws with one document left of two. *)
Lemma rebuild_duplicates_lose_data :
  let this := testsInitializer ["name"] Joi.any in
  let db := testsDb [john; travolta] in
  ∃ c c',
    db !! "TESTS" = Some c
    ∧ error (collectionSchema this (stripLokiProperties <$> data c)) = None
    ∧ rebuild this db
      = (Throw (EngineError "Duplicate key for property name: john"), {[ "TESTS" := c' ]})
    ∧ count c = 2%nat ∧ count c' = 1%nat.
Proof.
  intros this db.
  exists (insertArray [john; travolta] (emptyCollection [])).2,
         (insert john (emptyCollection ["name"])).2.
  repeat split; computes.
Qed.

(** C2, amended: when the collection exists, its stripped data passes the
    collection schema, the validated documents carry no identifier and, once
    stamped, do not collide on the configured unique fields, [rebuild] by an
    initializer with the default hooks replaces the collection by a fresh
    one that enforces exactly the configured unique fields and holds the
    validated documents in their order, with the identifiers 1, 2, ... and
    fresh metadata.  It has as many documents as were validated, with the
    same application-level fields; these are the original ones whenever the
    schema returns the data as it received it. *)
Theorem rebuild_replays_validated_data (this : initializer) (db : Db)
    (c : Collection) :
  defaultHooks this →
  db !! collectionName this = Some c →
  error (collectionSchema this (stripLokiProperties <$> data c)) = None →
  Forall (λ doc, prop doc "$loki" = Undefined)
    (value (collectionSchema this (stripLokiProperties <$> data c))) →
  uniqueOn (uniqueKeys this)
    (stamped (value (collectionSchema this (stripLokiProperties <$> data c)))) →
  let validated := value (collectionSchema this (stripLokiProperties <$> data c)) in
  let rebuilt := {| data := stamped validated; uniqueNames := uniqueKeys this;
                    binaryIndices := []; maxId := Z.of_nat (length validated) |} in
  rebuild this db = (Ok tt, <[collectionName this := rebuilt]> db)
  ∧ count rebuilt = length validated
  ∧ stripLokiProperties <$> data rebuilt = stripLokiProperties <$> validated
  ∧ (validated = stripLokiProperties <$> data c →
       count rebuilt = count c
       ∧ stripLokiProperties <$> data rebuilt = stripLokiProperties <$> data c).
Proof.
  intros (HpreC & HpostC & HpreR & HpostR) Hc Hvalid Hids Huniq validated rebuilt.
  assert (count rebuilt = length validated) as Hcount.
  { unfold count, rebuilt, stamped. simpl. apply length_imap. }
  assert (stripLokiProperties <$> data rebuilt = stripLokiProperties <$> validated)
    as Hfields by apply strip_stamped.
  split; [|split; [done|split; [done|]]].
  - unfold rebuild, create. rewrite HpreC, HpostC, HpreR, HpostR.
    unfold notImplemented, getCollection, bind, ret, gets. rewrite Hc. cbn zeta.
    rewrite Hvalid. unfold removeCollection, addCollection.
    rewrite lookup_delete_eq. unfold on. rewrite lookup_insert_eq.
    fold validated.
    pose proof (insertArray_accepted validated (emptyCollection (uniqueKeys this))) as Hins.
    simpl in Hins.
    assert (imap (λ i doc, stamp (0 + 1 + Z.of_nat i) doc) validated = stamped validated)
      as Hst.
    { unfold stamped. apply imap_ext. intros i d _. simpl. f_equal. lia. }
    rewrite Hst in Hins. rewrite Hins by done.
    rewrite insert_insert_eq, insert_delete_eq. done.
  - intros Hsame. split.
    + rewrite Hcount, Hsame. unfold count. by rewrite length_fmap.
    + rewrite Hfields, Hsame. apply strip_strip.
Qed.

Lemma rebuild_replays_validated_data_witness :
  let this := testsInitializer ["name"] Joi.any in
  let db := testsDb [john; julius] in
  ∃ rebuilt,
    rebuild this db = (Ok tt, {[ "TESTS" := rebuilt ]})
    ∧ uniqueNames rebuilt = ["name"]
    ∧ count rebuilt = 2%nat
    ∧ stripLokiProperties <$> data rebuilt = [john; julius].
Proof.
  intros this db.
  pose (c := (insertArray [john; julius] (emptyCollection [])).2).
  destruct (rebuild_replays_validated_data this db c) as (Hrun & _).
  - repeat split.
  - reflexivity.
  - reflexivity.
  - repeat constructor.
  - intros i j r1 r2 f Hij H1 H2 Hf [_ Heq].
    apply list_elem_of_singleton in Hf as ->.
    destruct i as [|[|i]], j as [|[|j]]; try done;
      inversion H1; inversion H2; subst; vm_compute in Heq; discriminate.
  - exists {| data := stamped [john; julius]; uniqueNames := ["name"];
              binaryIndices := []; maxId := 2 |}.
    split; [rewrite Hrun; computes|]. repeat split; computes.
Defined.

(** *** Initialization *)

Lemma hasUniqueProperties_own (c : Collection) :
  hasUniqueProperties c (uniqueNames c) = true.
Proof. by apply hasUniqueProperties_spec. Qed.

Lemma insertArray_uniqueNames (docs : list record) (c : Collection) (U : list string) :
  uniqueNames c = U → uniqueNames (insertArray docs c).2 = U.
Proof.
  apply (keeps_insertArray (λ c, uniqueNames c = U)).
  intros doc c0 H0. unfold insert. destruct (negb _); [done|].
  by destruct (duplicateKey _ _ _).
Qed.

(** What [initialize] establishes: when it returns, with the default hooks,
    the collection it returns is the one stored under the configured name
    and enforces every configured unique field. *)
Lemma initialize_enforces (this : initializer) (db db' : Db) (c : Collection) :
  defaultHooks this →
  initialize this db = (Ok c, db') →
  db' !! collectionName this = Some c
  ∧ hasUniqueProperties c (uniqueKeys this) = true.
Proof.
  intros (HpreC & HpostC & HpreR & HpostR).
  unfold initialize, shouldRebuild, rebuild, create.
  rewrite HpreC, HpostC, HpreR, HpostR.
  unfold notImplemented, getCollection, bind, ret, gets, throw.
  destruct (db !! collectionName this) as [c0|] eqn:Hc0.
  - destruct (hasUniqueProperties c0 (uniqueKeys this)) eqn:Hhas; simpl.
    + rewrite Hc0. inversion 1; subst. done.
    + rewrite Hc0.
      destruct (error (collectionSchema this _)); [by inversion 1|].
      unfold removeCollection, addCollection, on.
      rewrite lookup_delete_eq, lookup_insert_eq.
      pose proof (insertArray_uniqueNames
                    (value (collectionSchema this (stripLokiProperties <$> data c0)))
                    (emptyCollection (uniqueKeys this)) (uniqueKeys this) eq_refl) as Hnames.
      destruct (insertArray _ (emptyCollection (uniqueKeys this))) as [[objs|e] c1];
        [|by inversion 1].
      simpl in Hnames. rewrite lookup_insert_eq. inversion 1; subst.
      split; [apply lookup_insert_eq|]. rewrite <- Hnames.
      apply hasUniqueProperties_own.
  - simpl. rewrite Hc0. unfold addCollection. rewrite Hc0, lookup_insert_eq.
    inversion 1; subst. split; [apply lookup_insert_eq|].
    apply (hasUniqueProperties_own (emptyCollection (uniqueKeys this))).
Qed.

(** ** The factory *)

Lemma uniqueKey_accepts (x : jsval) :
  bool_decide (error (Schema.uniqueKey x) = None)
  = match x with Str s => negb (bool_decide (s = "")) | _ => false end.
Proof.
  destruct x as [| |b|n|s|l|m]; try done.
  unfold Schema.uniqueKey. by destruct (bool_decide (s = "")).
Qed.

Lemma uniqueKeys_accepts (items : list jsval) :
  forallb (λ x, bool_decide (error (Schema.uniqueKey x) = None)) items
  = forallb (λ x, match x with Str s => negb (bool_decide (s = "")) | _ => false end) items.
Proof.
  induction items as [|x items IH]; [done|].
  simpl. by rewrite uniqueKey_accepts, IH.
Qed.

(** C9 (construction-time validation), as stated, fails on the error kind:
    for the unique-keys input [7] the factory throws an error made by
    [errorFactory('ValidationError')], the kind that schema failures also
    have; there is no [ConfigurationError]. *)
Lemma Initializer_throws_ValidationError :
  ∃ e, Initializer "TESTS" (Num 7) None None ∅ = (Throw e, ∅)
       ∧ exn_name e = "ValidationError"
       ∧ exn_name e = exn_name (rebuildError "TESTS")
       ∧ exn_name e ≠ "ConfigurationError".
Proof.
  exists (ValidationError (Some "invalid uniqueKeys") ∅).
  split; [reflexivity|]. split; [reflexivity|]. split; [reflexivity|]. done.
Qed.

(** C9, amended: the factory accepts an omitted unique-keys input, one
    non-empty string, or an array of non-empty strings without duplicates,
    and returns the initializer for those keys with the default hooks; on
    any other input it throws a [ValidationError] with message
    [invalid uniqueKeys].  Either way the database is not touched. *)
Theorem Initializer_validates_unique_keys (name : string) (input : jsval)
    (collectionSchema : option (schema (list record)))
    (objectSchema : option (schema record)) (db : Db) :
  if acceptableUniqueKeys input
  then ∃ this,
         Initializer name input collectionSchema objectSchema db = (Ok this, db)
         ∧ collectionName this = name
         ∧ uniqueKeys this = namedKeys input
         ∧ defaultHooks this
  else Initializer name input collectionSchema objectSchema db
       = (Throw (ValidationError (Some "invalid uniqueKeys") ∅), db)
       ∧ exn_name (ValidationError (Some "invalid uniqueKeys") ∅) = "ValidationError".
Proof.
  unfold Initializer.
  destruct input as [| |b|n|s|items|m]; try done.
  - eexists. repeat split.
  - cbn [acceptableUniqueKeys valueToArray Schema.uniqueKeys forallb].
    rewrite uniqueKey_accepts.
    rewrite (bool_decide_eq_true_2 (NoDup [Str s])) by apply NoDup_singleton.
    destruct (bool_decide (s = "")); cbn; [done|].
    eexists. repeat split.
  - cbn [acceptableUniqueKeys valueToArray Schema.uniqueKeys].
    rewrite uniqueKeys_accepts.
    destruct (forallb _ items); cbn; [|done].
    destruct (bool_decide (NoDup items)); cbn; [|done].
    eexists. repeat split.
Qed.

Lemma Initializer_validates_unique_keys_witness :
  (* a number, booleans, a duplicate and the empty string are refused *)
  Forall (λ input, (Initializer "TESTS" input None None ∅).1
                   = Throw (ValidationError (Some "invalid uniqueKeys") ∅))
    [Num 7; Arr [Bool true; Bool false; Bool true]; Arr [Str "a"; Str "a"]; Str ""]
  (* an array of keys is accepted *)
  ∧ ∃ this, Initializer "TESTS" (Arr [Str "name"; Str "content"]) None None ∅ = (Ok this, ∅)
            ∧ uniqueKeys this = ["name"; "content"].
Proof.
  split.
  - repeat apply Forall_cons_2; [| | | |apply Forall_nil_2].
    + by destruct (Initializer_validates_unique_keys "TESTS" (Num 7) None None ∅) as [-> _].
    + by destruct (Initializer_validates_unique_keys "TESTS"
                     (Arr [Bool true; Bool false; Bool true]) None None ∅) as [-> _].
    + by destruct (Initializer_validates_unique_keys "TESTS"
                     (Arr [Str "a"; Str "a"]) None None ∅) as [-> _].
    + by destruct (Initializer_validates_unique_keys "TESTS" (Str "") None None ∅) as [-> _].
  - destruct (Initializer_validates_unique_keys "TESTS"
                (Arr [Str "name"; Str "content"]) None None ∅) as (this & H1 & _ & H2 & _).
    exists this. split; [exact H1 | exact H2].
Defined.

(** ** Validated insert *)

(** C7 (insert validation order): [validateAndInsert] validates against the
    object schema first.  If that fails, the schema's [ValidationError] is
    thrown and the collection is untouched, whatever it contains: no
    duplicate-key check is made.  Otherwise the uniqueness check runs on the
    input and its error, if any, is the outcome; and on success the
    document stored is the schema's validated value, stamped by the
    engine. *)
Theorem validateAndInsert_schema_first (objectSchema : schema record)
    (doc : record) (c : Collection) :
  match error (objectSchema doc) with
  | Some e =>
      validateAndInsert objectSchema doc c
      = (Throw (ValidationError None (pick e ["details"; "anotate"])), c)
  | None =>
      (∀ e c1, validateUniqueProperties doc None c = (Throw e, c1) →
               validateAndInsert objectSchema doc c = (Throw e, c))
      ∧ (∀ r c', validateAndInsert objectSchema doc c = (Ok r, c') →
                 validateUniqueProperties doc None c = (Ok true, c)
                 ∧ r = stamp (maxId c + 1) (value (objectSchema doc))
                 ∧ data c' = data c ++ [r])
  end.
Proof.
  destruct (error (objectSchema doc)) as [e|] eqn:Hschema.
  - unfold validateAndInsert, bind. rewrite validateObjectSchema_run, Hschema. done.
  - split.
    + intros e c1 Hu.
      pose proof (validateUniqueProperties_state doc None c) as Hst.
      rewrite Hu in Hst. simpl in Hst. subst c1.
      unfold validateAndInsert, bind.
      rewrite validateObjectSchema_run, Hschema, Hu. done.
    + intros r c' Hrun.
      apply validateAndInsert_Ok in Hrun as (_ & Hu & Hins).
      apply insert_Ok in Hins as (_ & -> & _ & ->). done.
Qed.

Lemma validateAndInsert_schema_first_witness :
  (* a malformed document with the slug of a live one: the schema's error *)
  validateAndInsert slugSchema {[ "slug" := Str "a"; "content" := Num 1 ]} slugs
  = (Throw (ValidationError None (pick (joiError "invalid object") ["details"; "anotate"])),
     slugs)
  (* a well-formed new document is stored with the schema's default *)
  ∧ ∃ r c', validateAndInsert slugSchema {[ "slug" := Str "c" ]} slugs = (Ok r, c')
            ∧ r = stamp 3 {[ "slug" := Str "c"; "isDisabled" := Bool false ]}
            ∧ data c' = data slugs ++ [r].
Proof.
  split.
  - exact (validateAndInsert_schema_first slugSchema
             {[ "slug" := Str "a"; "content" := Num 1 ]} slugs).
  - pose (r := stamp 3 {[ "slug" := Str "c"; "isDisabled" := Bool false ]} : record).
    assert (validateAndInsert slugSchema {[ "slug" := Str "c" ]} slugs
            = (Ok r, withData slugs (data slugs ++ [r]) 3)) as Hrun by computes.
    pose proof (validateAndInsert_schema_first slugSchema {[ "slug" := Str "c" ]} slugs)
      as [_ Hok].
    destruct (Hok _ _ Hrun) as (_ & Hr & Hdata).
    exists r, (withData slugs (data slugs ++ [r]) 3).
    split; [exact Hrun|]. split; [exact Hr | exact Hdata].
Defined.

(** ** The uniqueness check *)

Lemma list_find_is_Some {A} (P : A → Prop) `{∀ x, Decision (P x)} (l : list A) :
  is_Some (list_find P l) ↔ Exists P l.
Proof.
  split.
  - intros [[i x] Hfind]. apply list_find_Some in Hfind as (Hi & HP & _).
    apply Exists_exists. exists x. split; [|done]. by eapply list_elem_of_lookup_2.
  - intros Hex. destruct (list_find P l) as [ix|] eqn:Hfind; [by eexists|].
    apply list_find_None in Hfind. apply Exists_exists in Hex as (x & Hx & HP).
    rewrite Forall_forall in Hfind. by destruct (Hfind x Hx).
Qed.

Lemma checkUniqueProperty_run (doc : record) (existing : option record)
    (key : string) (c : Collection) :
  key ∈ uniqueNames c →
  checkUniqueProperty doc existing key c =
    if collision doc existing c key
    then (Throw (duplicateKeyError key (prop doc key)), c)
    else (Ok tt, c).
Proof.
  intros Hkey. unfold checkUniqueProperty, collision.
  destruct (truthy (prop doc key) && negb _); simpl; [|done].
  unfold bind, by_. rewrite bool_decide_eq_true_2 by done.
  pose proof (list_find_is_Some (holds key (prop doc key)) (data c)) as Hfind.
  destruct (list_find _ (data c)) as [[i live]|]; simpl.
  - rewrite bool_decide_eq_true_2; [done|]. apply Hfind. eauto.
  - rewrite bool_decide_eq_false_2; [done|]. intros Hex. apply Hfind in Hex.
    by destruct Hex.
Qed.

Lemma forEach_checkUniqueProperty_run (doc : record) (existing : option record)
    (names : list string) (c : Collection) :
  (∀ key, key ∈ names → key ∈ uniqueNames c) →
  forEach names (checkUniqueProperty doc existing) c =
    match list_find (λ key, collision doc existing c key = true) names with
    | Some (_, key) => (Throw (duplicateKeyError key (prop doc key)), c)
    | None => (Ok tt, c)
    end.
Proof.
  induction names as [|key names IH]; intros Hsub; [done|].
  simpl. unfold bind. rewrite checkUniqueProperty_run by (apply Hsub; left).
  destruct (decide (collision doc existing c key = true)) as [Hc|Hc].
  - by rewrite Hc.
  - apply not_true_is_false in Hc. rewrite Hc, IH.
    + by destruct (list_find _ names) as [[i k]|].
    + intros k Hk. apply Hsub. by right.
Qed.

(** What [validateUniqueProperties] does: it throws the duplicate-key
    [ValidationError] for the first unique field with a collision, and
    returns [true] when there is none. *)
Lemma validateUniqueProperties_run (doc : record) (existing : option record)
    (c : Collection) :
  validateUniqueProperties doc existing c =
    match list_find (λ key, collision doc existing c key = true) (uniqueNames c) with
    | Some (_, key) => (Throw (duplicateKeyError key (prop doc key)), c)
    | None => (Ok true, c)
    end.
Proof.
  unfold validateUniqueProperties, bind, gets.
  case_bool_decide as Hlen.
  - rewrite forEach_checkUniqueProperty_run by done.
    by destruct (list_find _ (uniqueNames c)) as [[i k]|].
  - destruct (uniqueNames c); [done|]. simpl in Hlen. lia.
Qed.

(** C5 (uniqueness check raises-iff), at an input where the code breaks it:
    the document supplies [0], which is not [null], on the unique field
    [u1]; no existing document is given; a live document holds [0] on
    [u1].  The check returns [true] all the same, and the duplicate is only
    refused by the engine, with a plain [Error].  With a value that is
    truthy, such as [2], the check throws as described. *)
Theorem validateUniqueProperties_misses_falsy_duplicate :
  let doc : record := {[ "u1" := Num 0 ]} in
  "u1" ∈ uniqueNames uniques
  ∧ nullish (prop doc "u1") = false
  ∧ Exists (λ live, prop live "u1" = prop doc "u1") (data uniques)
  ∧ validateUniqueProperties doc None uniques = (Ok true, uniques)
  ∧ validateAndInsert Joi.any doc uniques
    = (Throw (EngineError "Duplicate key for property u1: 0"), uniques)
  ∧ validateUniqueProperties {[ "u1" := Num 2 ]} None uniques
    = (Throw (duplicateKeyError "u1" (Num 2)), uniques).
Proof.
  intros doc. split; [by left|]. split; [done|].
  split; [by left|]. repeat split; computes.
Qed.

(** ** Replace and patch *)

Lemma update_get (doc r : record) (c c' : Collection) :
  update doc c = (Ok r, c') → get (prop r "$loki") c' = Some r.
Proof.
  intros Hupd. apply update_Ok in Hupd as (-> & id & i & old & Hid & Hloc & _ & ->).
  unfold get, locate, prop. rewrite Hid. simpl.
  unfold locate in Hloc. destruct id; try done.
  apply list_find_Some in Hloc as (Hi & _ & Hmin).
  assert (list_find (λ r0 : record, r0 !! "$loki" = Some (Num n)) (<[i:=doc]> (data c))
          = Some (i, doc)) as ->; [|done].
  apply list_find_Some. split; [|split; [done|]].
  - apply list_lookup_insert_eq. by eapply lookup_lt_Some.
  - intros j y Hj Hlt. rewrite list_lookup_insert_ne in Hj by lia. by eapply Hmin.
Qed.

(** What [validateAndReplace] does for the storage-owned fields: both are
    those of the existing document, whatever the input carries. *)
Lemma validateAndReplace_keeps_storage_fields (objectSchema : schema record)
    (doc r : record) (c c' : Collection) :
  validateAndReplace objectSchema doc c = (Ok r, c') →
  ∃ existing,
    get (prop doc "$loki") c = Some existing
    ∧ get (prop doc "$loki") c' = Some r
    ∧ r !! "$loki" = existing !! "$loki"
    ∧ (is_Some (existing !! "meta") → r !! "meta" = existing !! "meta").
Proof.
  intros Hrun. apply validateAndReplace_Ok in Hrun as (e & Hget & _ & _ & Hr & Hupd).
  exists e. split; [done|].
  assert (e !! "$loki" = Some (prop doc "$loki")) as Hid.
  { unfold get in Hget. destruct (locate _ c) as [[i x]|] eqn:Hloc; [|done].
    simpl in Hget. inversion Hget; subst. by apply locate_Some in Hloc as [_ ?]. }
  assert (r !! "$loki" = e !! "$loki") as Hloki.
  { rewrite Hr, lookup_assign, pick_storage_field, Hid by tauto. done. }
  split; [|split; [done|]].
  - apply update_get in Hupd. unfold prop at 1 in Hupd. by rewrite Hloki, Hid in Hupd.
  - intros [m Hm]. by rewrite Hr, lookup_assign, pick_storage_field, Hm by tauto.
Qed.

(** C3 (storage-field protection), at an input where the code breaks it:
    patching the first document of the test collection with
    [{ $loki: 1, meta: { a: 1 } }] succeeds and keeps the identifier, but the
    metadata stored afterwards is the existing metadata with the patch's
    property [a] added to it. *)
Theorem validateAndPatch_meta_takes_patch_properties :
  let doc : record := {[ "$loki" := Num 1; "meta" := Obj {[ "a" := Num 1 ]} ]} in
  ∃ existing r c',
    get (Num 1) slugs = Some existing
    ∧ validateAndPatch slugSchema doc slugs = (Ok r, c')
    ∧ get (Num 1) c' = Some r
    ∧ prop r "$loki" = prop existing "$loki"
    ∧ prop existing "meta" = freshMeta
    ∧ prop r "meta"
      = Obj {[ "a" := Num 1; "revision" := Num 0; "created" := Num 0; "version" := Num 0 ]}
    ∧ prop r "meta" ≠ prop existing "meta".
Proof.
  intros doc.
  pose (existing := stamp 1 slugA).
  pose (r := defaultsDeep (pick existing ["$loki"; "meta"]) [doc; existing]).
  exists existing, r, (withData slugs (<[0%nat := r]> (data slugs)) 2).
  repeat split; try computes.
  by vm_compute.
Qed.

(** C10 (patch skips schema output): once the identifier resolves and the
    patch passes the uniqueness check, [validateAndPatch] merges, and asks
    the object schema about the merged document: a merged document that the
    schema refuses is rejected with the schema's [ValidationError]; one that
    it accepts is handed to the engine's [update] as it was merged, whatever
    value the schema returned, and the outcome of the patch is that of the
    update.  So two schemas that agree on refusing the
    merged document give the same outcome, and apart from the metadata,
    which is the engine's, the result has the merged document's fields.
    [validateAndReplace] and [validateAndInsert] hand the engine the value
    that the schema returned. *)
Theorem validateAndPatch_ignores_schema_value (s1 s2 : schema record)
    (doc existing : record) (c : Collection) :
  getByID (prop doc "$loki") c = (Ok existing, c) →
  validateUniqueProperties doc (Some existing) c = (Ok true, c) →
  let merged := defaultsDeep (pick existing ["$loki"; "meta"]) [doc; existing] in
  (∀ err, error (s1 merged) = Some err →
          (validateAndPatch s1 doc c).1
          = Throw (ValidationError None (pick err ["details"; "anotate"])))
  ∧ (error (s1 merged) = None →
       (validateAndPatch s1 doc c).1 = (update merged c).1
       ∧ ∀ r c', update merged c = (Ok r, c') →
                 validateAndPatch s1 doc c = (Ok r, c'))
  ∧ (error (s1 merged) = error (s2 merged) →
       validateAndPatch s1 doc c = validateAndPatch s2 doc c)
  ∧ (∀ r c', validateAndPatch s1 doc c = (Ok r, c') →
       error (s1 merged) = None
       ∧ get (prop r "$loki") c' = Some r
       ∧ ∀ f, f ≠ "meta" → prop r f = prop merged f)
  ∧ (error (s1 doc) = None →
       validateUniqueProperties (value (s1 doc)) (Some existing) c = (Ok true, c) →
       validateAndReplace s1 doc c
       = update (assign (value (s1 doc)) (pick existing ["$loki"; "meta"])) c)
  ∧ (error (s1 doc) = None →
       validateUniqueProperties doc None c = (Ok true, c) →
       validateAndInsert s1 doc c = insert (value (s1 doc)) c).
Proof.
  intros Hget Hunique merged.
  assert (∀ s, validateAndPatch s doc c
               = match error (s merged) with
                 | Some err =>
                     (Throw (ValidationError None (pick err ["details"; "anotate"])), c)
                 | None => update merged c
                 end) as Hrun.
  { intros s. unfold validateAndPatch, bind.
    rewrite Hget, Hunique, validateObjectSchema_run. fold merged.
    by destruct (error (s merged)). }
  split; [|split; [|split; [|split; [|split]]]].
  - intros err Herr. by rewrite Hrun, Herr.
  - intros Herr. rewrite Hrun, Herr. split; [done|]. by intros r c' ->.
  - intros Herr. by rewrite !Hrun, Herr.
  - intros r c' Hpatch. rewrite Hrun in Hpatch.
    destruct (error (s1 merged)); [done|]. split; [done|].
    pose proof (update_get _ _ _ _ Hpatch) as Hstored.
    apply update_Ok in Hpatch as [-> _]. done.
  - intros Herr Hu. unfold validateAndReplace, bind.
    by rewrite Hget, validateObjectSchema_run, Herr, Hu.
  - intros Herr Hu. unfold validateAndInsert, bind.
    by rewrite validateObjectSchema_run, Herr, Hu.
Qed.

Lemma validateAndPatch_ignores_schema_value_witness :
  let patch : record := {[ "$loki" := Num 1; "slug" := Str "c"; "extra" := Str "xxx" ]} in
  let wrong : record := {[ "$loki" := Num 1; "content" := Num 5 ]} in
  validateAndPatch slugSchema patch slugs = validateAndPatch slugSchemaNoDefault patch slugs
  ∧ (∃ r c', validateAndPatch slugSchema patch slugs = (Ok r, c')
             ∧ prop r "isDisabled" = Undefined
             ∧ prop r "slug" = Str "c")
  ∧ (∃ r c', validateAndReplace slugSchema patch slugs = (Ok r, c')
             ∧ prop r "isDisabled" = Bool false)
  ∧ (validateAndPatch slugSchema wrong slugs).1
    = Throw (ValidationError None (pick (joiError "invalid object") ["details"; "anotate"])).
Proof.
  intros patch wrong.
  destruct (validateAndPatch_ignores_schema_value slugSchema slugSchemaNoDefault
              patch (stamp 1 slugA) slugs)
    as (_ & Hraw & Hsame & Hfields & Hreplace & _); [computes|computes|].
  destruct (validateAndPatch_ignores_schema_value slugSchema slugSchemaNoDefault
              wrong (stamp 1 slugA) slugs)
    as (Hrefused & _); [computes|computes|].
  pose (e := stamp 1 slugA).
  split; [apply Hsame; reflexivity|]. split; [|split].
  - pose (r := defaultsDeep (pick e ["$loki"; "meta"]) [patch; e]).
    exists r, (withData slugs (<[0%nat := r]> (data slugs)) 2).
    assert (validateAndPatch slugSchema patch slugs
            = (Ok r, withData slugs (<[0%nat := r]> (data slugs)) 2)) as Hrun.
    { apply Hraw; computes. }
    split; [exact Hrun|].
    destruct (Hfields _ _ Hrun) as (_ & _ & Hr).
    split; [rewrite Hr by done; computes|rewrite Hr by done; computes].
  - pose (r := assign (value (slugSchema patch)) (pick e ["$loki"; "meta"])).
    exists r, (withData slugs (<[0%nat := r]> (data slugs)) 2).
    split; [rewrite Hreplace by computes; computes|computes].
  - apply Hrefused. computes.
Defined.

Lemma get_Some_inv (id : jsval) (c : Collection) (e : record) :
  get id c = Some e → ∃ n, id = Num n ∧ e !! "$loki" = Some (Num n) ∧ e ∈ data c.
Proof.
  unfold get. destruct (locate id c) as [[i x]|] eqn:Hloc; [|done].
  simpl. inversion 1; subst. pose proof Hloc as Hloc'.
  apply locate_Some in Hloc as [Hi Hid]. unfold locate in Hloc'.
  destruct id; try done. exists n. repeat split; try done.
  apply list_elem_of_lookup. eauto.
Qed.




(** ** Upsert *)

Lemma wellFormed_loki (c : Collection) (r : record) :
  wellFormed c = true → r ∈ data c →
  ∃ n, r !! "$loki" = Some (Num n) ∧ 1 ≤ n ≤ maxId c.
Proof. intros [_ Hall]%wellFormed_spec. apply Hall. Qed.

Lemma wellFormed_get_truthy (c : Collection) (id : jsval) (e : record) :
  wellFormed c = true → get id c = Some e → truthy id = true.
Proof.
  intros Hwf Hget. apply get_Some_inv in Hget as (n & -> & Hid & He).
  destruct (wellFormed_loki c e Hwf He) as (n' & Hid' & Hn).
  assert (n' = n) as -> by congruence.
  simpl. apply negb_true_iff, Z.eqb_neq. lia.
Qed.

Lemma wellFormed_fresh (c : Collection) :
  wellFormed c = true → get (Num (maxId c + 1)) c = None.
Proof.
  intros Hwf. unfold get, locate.
  assert (list_find (λ r : record, r !! "$loki" = Some (Num (maxId c + 1))) (data c)
          = None) as ->; [|done].
  apply list_find_None, Forall_forall. intros r Hr Hid.
  destruct (wellFormed_loki c r Hwf Hr) as (n & Hid' & Hn).
  assert (n = maxId c + 1) by congruence. lia.
Qed.

(** C8 (upsert dichotomy): on a collection whose documents carry
    engine-assigned identifiers, [upsert] of a document whose [$loki]
    resolves to a live document is the engine's [update] of that document
    and nothing else: no schema is consulted and
    [validateUniqueProperties] is not called.  When [$loki] is absent or
    resolves to nothing, [upsert] is the engine's [insert] of the document
    stripped of [$loki] and [meta]: whenever it returns, the document
    returned has the next identifier, which no live document has, the
    engine's fresh metadata, and the application fields of the input; and
    it does return whenever the stripped document collides with no live
    document on a unique field. *)
Theorem upsert_dichotomy (doc : record) (c : Collection) :
  wellFormed c = true →
  (is_Some (get (prop doc "$loki") c) → upsert doc c = update doc c)
  ∧ (get (prop doc "$loki") c = None →
       upsert doc c = insert (stripLokiProperties doc) c
       ∧ ∀ r c', upsert doc c = (Ok r, c') →
           r = stamp (maxId c + 1) (stripLokiProperties doc)
           ∧ prop r "$loki" = Num (maxId c + 1)
           ∧ get (Num (maxId c + 1)) c = None
           ∧ prop r "meta" = freshMeta
           ∧ (∀ f, f ≠ "$loki" → f ≠ "meta" → r !! f = doc !! f)
           ∧ data c' = data c ++ [r])
  ∧ (get (prop doc "$loki") c = None →
     duplicateKey (stamp (maxId c + 1) (stripLokiProperties doc)) (data c)
       (uniqueNames c) = None →
     upsert doc c
     = (Ok (stamp (maxId c + 1) (stripLokiProperties doc)),
        withData c (data c ++ [stamp (maxId c + 1) (stripLokiProperties doc)])
          (maxId c + 1))).
Proof.
  intros Hwf.
  assert (get (prop doc "$loki") c = None →
          upsert doc c = insert (stripLokiProperties doc) c) as Hins.
  { intros Hget. unfold upsert.
    rewrite Hget, bool_decide_eq_false_2, andb_false_r; [done|]. by intros [? ?]. }
  split; [|split].
  - intros [e Hget]. unfold upsert.
    rewrite (wellFormed_get_truthy c _ e Hwf Hget), Hget.
    rewrite bool_decide_eq_true_2 by eauto. done.
  - intros Hget. specialize (Hins Hget).
    split; [done|]. intros r c' Hrun. rewrite Hins in Hrun.
    apply insert_Ok in Hrun as (_ & -> & _ & ->).
    split; [done|]. split; [apply prop_stamp_loki|].
    split; [by apply wellFormed_fresh|]. split; [apply prop_stamp_meta|].
    split; [|done]. intros f Hf1 Hf2. unfold stamp.
    rewrite !lookup_insert_ne by done.
    rewrite lookup_stripLokiProperties, decide_False; [done|]. tauto.
  - intros Hget Hdup. rewrite (Hins Hget). unfold insert.
    assert (prop (stripLokiProperties doc) "$loki" = Undefined) as ->.
    { unfold prop. rewrite lookup_stripLokiProperties, decide_True; [done|]. tauto. }
    rewrite bool_decide_eq_true_2 by done. simpl. by rewrite Hdup.
Qed.

Lemma upsert_dichotomy_witness :
  (* an existing identifier: a raw update, here of a document the object
      schema of the tests would refuse *)
  upsert {[ "$loki" := Num 1; "slug" := Num 5 ]} slugs
  = update {[ "$loki" := Num 1; "slug" := Num 5 ]} slugs
  (* an identifier that resolves to nothing: inserted as the third
      document, the supplied identifier and metadata discarded *)
  ∧ ∃ r c',
      upsert {[ "$loki" := Num 42; "meta" := Obj ∅; "slug" := Str "c";
                "content" := Str "789" ]} slugs = (Ok r, c')
      ∧ prop r "$loki" = Num 3 ∧ prop r "meta" = freshMeta
      ∧ r !! "slug" = Some (Str "c") ∧ count c' = 3%nat.
Proof.
  split.
  - apply (upsert_dichotomy {[ "$loki" := Num 1; "slug" := Num 5 ]} slugs);
      [reflexivity|]. exists (stamp 1 slugA). reflexivity.
  - destruct (upsert_dichotomy {[ "$loki" := Num 42; "meta" := Obj ∅; "slug" := Str "c";
                                  "content" := Str "789" ]} slugs)
      as (_ & Hnew & Hrun); [reflexivity|].
    specialize (Hrun eq_refl eq_refl).
    destruct Hnew as [_ Hnew]; [reflexivity|].
    destruct (Hnew _ _ Hrun) as (_ & Hid & _ & Hmeta & Hfields & Hdata).
    eexists _, _. split; [exact Hrun|].
    split; [exact Hid|]. split; [exact Hmeta|].
    split; [rewrite Hfields by done; reflexivity|]. reflexivity.
Defined.

(** ** Identifiers *)

Lemma find_delete_other {A} (P : A → Prop) `{∀ x, Decision (P x)}
    (l : list A) (i : nat) (x : A) :
  l !! i = Some x → ¬ P x →
  snd <$> list_find P (delete i l) = snd <$> list_find P l.
Proof.
  revert i. induction l as [|a l IH]; intros i Hi HP; [done|].
  destruct i as [|i]; simpl in *.
  - inversion Hi; subst. rewrite decide_False by done.
    by destruct (list_find P l) as [[j y]|].
  - destruct (decide (P a)); [done|].
    specialize (IH i Hi HP).
    destruct (list_find P (delete i l)) as [[j y]|],
      (list_find P l) as [[k z]|]; simpl in *; congruence.
Qed.

Lemma sound_loki (c : Collection) (r : record) :
  sound c → r ∈ data c → ∃ n, r !! "$loki" = Some (Num n) ∧ 1 ≤ n ≤ maxId c.
Proof. intros [[_ Hall]%wellFormed_spec _]. apply Hall. Qed.

(** With distinct identifiers, a live document is the one its identifier
    locates. *)
Lemma locate_position (c : Collection) (i : nat) (r : record) :
  sound c → data c !! i = Some r → locate (prop r "$loki") c = Some (i, r).
Proof.
  intros Hsound Hi.
  destruct (sound_loki c r Hsound) as (n & Hid & _); [by eapply list_elem_of_lookup_2|].
  unfold prop. rewrite Hid. simpl. apply list_find_Some.
  split; [done|]. split; [done|]. intros j y Hj Hlt Hy.
  destruct Hsound as [_ Hdistinct]. unfold distinctIds in Hdistinct.
  assert (j = i); [|lia].
  apply (NoDup_lookup _ j i (Num n) Hdistinct);
    rewrite list_lookup_fmap; [rewrite Hj|rewrite Hi]; simpl; unfold prop;
    [by rewrite Hy|by rewrite Hid].
Qed.

Lemma get_locate (id : jsval) (c : Collection) (r : record) :
  get id c = Some r → ∃ i, locate id c = Some (i, r).
Proof.
  unfold get. destruct (locate id c) as [[i x]|]; [|done].
  simpl. inversion 1; subst. eauto.
Qed.

Lemma sound_insert (doc : record) : keeps sound (insert doc).
Proof.
  intros c [Hwf Hdistinct]. split; [by apply wellFormed_insert|].
  unfold insert. destruct (negb _); [done|].
  destruct (duplicateKey _ _ _); [done|]. simpl.
  unfold distinctIds. simpl. rewrite fmap_app. apply NoDup_app.
  split; [done|]. split; [|apply NoDup_singleton].
  intros x Hx Hnew. apply list_elem_of_singleton in Hnew.
  rewrite prop_stamp_loki in Hnew. subst x.
  apply list_elem_of_fmap in Hx as (r & Hr & Hin).
  destruct (wellFormed_loki c r Hwf Hin) as (n & Hid & Hn).
  unfold prop in Hr. rewrite Hid in Hr. simpl in Hr. inversion Hr. lia.
Qed.

Lemma sound_update (doc : record) : keeps sound (update doc).
Proof.
  intros c [Hwf Hdistinct]. split; [by apply wellFormed_update|].
  unfold update. destruct (doc !! "$loki") as [id|] eqn:Hid; [|done].
  destruct (locate id c) as [[i old]|] eqn:Hloc; [|done].
  destruct (duplicateKey _ _ _); [done|]. simpl.
  apply locate_Some in Hloc as [Hi Hold].
  unfold distinctIds. simpl. rewrite list_fmap_insert, list_insert_id; [done|].
  rewrite list_lookup_fmap, Hi. simpl. unfold prop. by rewrite Hid, Hold.
Qed.

Lemma sound_remove (doc : record) : keeps sound (remove doc).
Proof.
  intros c [Hwf Hdistinct]. split; [by apply wellFormed_remove|].
  unfold remove. destruct (locate _ c) as [[i old]|]; [|done]. simpl.
  unfold distinctIds. simpl. rewrite list_fmap_delete.
  eapply sublist_NoDup; [done|apply sublist_delete].
Qed.

Lemma sound_empty (unique : list string) : sound (emptyCollection unique).
Proof. split; [done|]. apply NoDup_nil_2. Qed.



Lemma getByID_missing (c : Collection) (id : jsval) :
  truthy id = true → error (lokiID id) = None → get id c = None →
  getByID id c = (Throw (ObjectNotFoundError None ∅), c).
Proof. intros Htruthy Hok Hget. unfold getByID. by rewrite Htruthy, Hok, Hget. Qed.

(** ** Further properties of the extension methods *)

(** X1 ([getByID]): a falsy id, a number below 1, a boolean, an array or an
    object is refused with a [ValidationError]; for an integer from 1 up to
    the largest safe integer, [2^53 - 1], the outcome is the live document
    with that identifier, or an [ObjectNotFoundError] when there is none,
    which is a different error kind.  The collection is the same afterwards
    in every case.  Identifiers given as non-empty strings and numbers
    beyond the safe range are left out: identifiers are numbers of that
    range here. *)
Theorem getByID_outcomes (c : Collection) :
  (∀ id, truthy id = false → getByID id c = (Throw (ValidationError None ∅), c))
  ∧ (∀ n, n < 1 → getByID (Num n) c = (Throw (ValidationError None ∅), c))
  ∧ (∀ n, 1 ≤ n ≤ 9007199254740991 →
       match get (Num n) c with
       | Some doc =>
           getByID (Num n) c = (Ok doc, c) ∧ doc ∈ data c ∧ prop doc "$loki" = Num n
       | None => getByID (Num n) c = (Throw (ObjectNotFoundError None ∅), c)
       end)
  ∧ (∀ b, getByID (Bool b) c = (Throw (ValidationError None ∅), c))
  ∧ (∀ items, getByID (Arr items) c = (Throw (ValidationError None ∅), c))
  ∧ (∀ fields, getByID (Obj fields) c = (Throw (ValidationError None ∅), c))
  ∧ exn_name (ValidationError None ∅) ≠ exn_name (ObjectNotFoundError None ∅).
Proof.
  split; [|split; [|split; [|split; [|split; [|split; [|done]]]]]]; try done.
  - intros id Hfalsy. unfold getByID. by rewrite Hfalsy.
  - intros n Hn. unfold getByID, lokiID. simpl.
    destruct (Z.leb_spec 1 n); [lia|]. simpl. by rewrite orb_true_r.
  - intros n [Hn _]. unfold getByID, lokiID. simpl.
    destruct (Z.leb_spec 1 n); [|lia]. simpl.
    assert (negb (n =? 0) = true) as -> by (apply negb_true_iff, Z.eqb_neq; lia).
    simpl. destruct (get (Num n) c) as [doc|] eqn:Hget; [|done].
    split; [done|]. apply get_Some_inv in Hget as (n' & Hn' & Hid & Hin).
    split; [done|]. unfold prop. by rewrite Hid, Hn'.
  - intros b. unfold getByID. simpl. by destruct b.
Qed.


Lemma sound_slugs : sound slugs.
Proof. apply (keeps_insertArray sound sound_insert), sound_empty. Qed.


(** X3 ([removeByID]): on a collection with engine-assigned identifiers, a
    successful [removeByID] returns the document that [getByID] found,
    leaves one document less, makes [getByID] of that identifier throw
    [ObjectNotFoundError], and changes neither what any other identifier
    resolves to nor the unique constraints. *)
Theorem removeByID_removes (id : jsval) (c c' : Collection) (r : record) :
  sound c →
  removeByID id c = (Ok r, c') →
  getByID id c = (Ok r, c)
  ∧ count c = S (count c')
  ∧ getByID id c' = (Throw (ObjectNotFoundError None ∅), c')
  ∧ (∀ id', id' ≠ id → get id' c' = get id' c)
  ∧ uniqueNames c' = uniqueNames c.
Proof.
  intros Hsound. unfold removeByID, bind.
  destruct (getByID id c) as [[e|err] c1] eqn:Hget; [|by inversion 1].
  apply getByID_Ok in Hget as (-> & Hget & Htruthy & Hloki).
  destruct (get_Some_inv _ _ _ Hget) as (n & -> & Hid & Hin).
  destruct (get_locate _ _ _ Hget) as [i Hloc].
  assert (prop e "$loki" = Num n) as Hprop by (unfold prop; by rewrite Hid).
  unfold remove, cloneDeep. rewrite Hprop, Hloc.
  unfold ret. intros Hrun. inversion Hrun; subst. clear Hrun.
  pose proof Hloc as Hloc'. apply locate_Some in Hloc' as [Hi _].
  assert (get (Num n) (withData c (delete i (data c)) (maxId c)) = None) as Hgone.
  { unfold get, locate. simpl.
    assert (list_find (λ r0 : record, r0 !! "$loki" = Some (Num n)) (delete i (data c))
            = None) as ->; [|done].
    apply list_find_None, Forall_forall. intros r' Hr' Hid'.
    apply list_elem_of_lookup_1 in Hr' as [j Hj].
    rewrite lookup_delete_position in Hj.
    destruct Hsound as [_ Hdistinct]. unfold distinctIds in Hdistinct.
    assert ((if decide (j < i)%nat then j else S j) = i) as Heq.
    { apply (NoDup_lookup _ _ i (Num n) Hdistinct);
        rewrite list_lookup_fmap; [rewrite Hj|rewrite Hi]; simpl; unfold prop;
        [by rewrite Hid'|by rewrite Hid]. }
    case_decide; lia. }
  split; [|split; [|split; [|split; [|done]]]].
  - done.
  - unfold count. simpl. rewrite length_delete by eauto.
    apply lookup_lt_Some in Hi. lia.
  - by apply getByID_missing.
  - intros id' Hne. unfold get, locate. simpl.
    destruct id'; try done.
    apply (find_delete_other _ _ i r Hi). rewrite Hid. congruence.
Qed.

Lemma removeByID_removes_witness :
  getByID (Num 1) slugs = (Ok (stamp 1 slugA), slugs)
  ∧ count slugs = 2%nat
  ∧ getByID (Num 1) (withData slugs [stamp 2 slugB] 2)
    = (Throw (ObjectNotFoundError None ∅), withData slugs [stamp 2 slugB] 2).
Proof.
  destruct (removeByID_removes (Num 1) slugs (withData slugs [stamp 2 slugB] 2)
              (stamp 1 slugA) sound_slugs) as (H1 & H2 & H3 & _); [computes|].
  split; [exact H1|]. split; [exact H2 | exact H3].
Defined.

(** X4 ([removeBy]): on a field without a unique constraint the lookup
    throws a [TypeError] and nothing is removed.  On a unique field, when no
    live document holds the value the call does nothing; otherwise exactly
    the document that [by] finds is removed, and if the field's values were
    unique no document holds the value afterwards. *)
Theorem removeBy_outcomes (field : string) (v : jsval) (c : Collection) :
  (field ∉ uniqueNames c → ∃ msg, removeBy field v c = (Throw (TypeError msg), c))
  ∧ (field ∈ uniqueNames c → sound c →
       match list_find (holds field v) (data c) with
       | None => removeBy field v c = (Ok tt, c)
       | Some (i, doc) =>
           removeBy field v c = (Ok tt, withData c (delete i (data c)) (maxId c))
           ∧ (uniqueOn [field] (data c) →
                by_ field v (withData c (delete i (data c)) (maxId c))
                = (Ok None, withData c (delete i (data c)) (maxId c)))
       end).
Proof.
  split.
  - intros Hnot. eexists. unfold removeBy, bind, by_.
    by rewrite bool_decide_eq_false_2.
  - intros Hfield Hsound. unfold removeBy, bind, by_.
    rewrite bool_decide_eq_true_2 by done.
    destruct (list_find (holds field v) (data c)) as [[i doc]|] eqn:Hfind; simpl; [|done].
    apply list_find_Some in Hfind as (Hi & Hholds & _).
    split.
    + unfold remove. by rewrite (locate_position c i doc Hsound Hi).
    + intros Huniq. rewrite bool_decide_eq_true_2 by done.
      assert (list_find (holds field v) (delete i (data c)) = None) as ->; [|done].
      apply list_find_None, Forall_forall. intros r' Hr' Hholds'.
      apply list_elem_of_lookup_1 in Hr' as [j Hj].
      rewrite lookup_delete_position in Hj.
      destruct Hholds as [Hnn Hdoc], Hholds' as [_ Hr'].
      apply (Huniq i (if decide (j < i)%nat then j else S j) doc r' field);
        [case_decide; lia|done|done|by left|].
      rewrite Hdoc. by split.
Qed.

Lemma removeBy_outcomes_witness :
  (∃ msg, removeBy "name" (Str "sam") slugs = (Throw (TypeError msg), slugs))
  ∧ removeBy "slug" (Str "z") slugs = (Ok tt, slugs)
  ∧ removeBy "slug" (Str "a") slugs = (Ok tt, withData slugs [stamp 2 slugB] 2).
Proof.
  destruct (removeBy_outcomes "name" (Str "sam") slugs) as [Hname _].
  destruct (removeBy_outcomes "slug" (Str "z") slugs) as [_ Hz].
  destruct (removeBy_outcomes "slug" (Str "a") slugs) as [_ Ha].
  split; [apply Hname, (bool_decide_eq_false_1 _); computes|].
  split.
  - apply (Hz ltac:(by left) sound_slugs).
  - apply (Ha ltac:(by left) sound_slugs).
Defined.

(** ** Further properties of the validated operations *)

Lemma truthy_not_nullish (v : jsval) : truthy v = true → nullish v = false.
Proof. by destruct v. Qed.

Lemma collision_spec (doc : record) (existing : option record) (c : Collection)
    (key : string) :
  collision doc existing c key = true ↔
  truthy (prop doc key) = true
  ∧ (∀ e, existing = Some e → truthy (prop e key) = true → prop e key ≠ prop doc key)
  ∧ ∃ live, live ∈ data c ∧ prop live key = prop doc key.
Proof.
  unfold collision, isEqual. rewrite !andb_true_iff, negb_true_iff, bool_decide_eq_true.
  rewrite Exists_exists. unfold holds. split.
  - intros [[Htruthy Hex] (live & Hin & _ & Hlive)].
    split; [done|]. split; [|eauto].
    intros e -> He Heq. rewrite He, Heq, bool_decide_eq_true_2 in Hex; done.
  - intros (Htruthy & Hex & live & Hin & Hlive).
    split; [split; [done|]|].
    + destruct existing as [e|]; [|done].
      destruct (truthy (prop e key)) eqn:He; [|done]. simpl.
      apply bool_decide_eq_false_2. intros Heq. by apply (Hex e).
    + exists live. split; [done|]. split; [by apply truthy_not_nullish|done].
Qed.

(** X5 ([validateUniqueProperties]): the check throws exactly when, for some
    unique field of the collection, the document's value is truthy, differs
    from the value of [existing] (or [existing] is absent or has a falsy
    value there), and some live document holds it.  It then throws the
    duplicate-key [ValidationError] naming such a field and the value;
    otherwise it returns [true].  The collection is never changed. *)
Theorem validateUniqueProperties_outcomes (doc : record) (existing : option record)
    (c : Collection) :
  let clash key :=
    truthy (prop doc key) = true
    ∧ (∀ e, existing = Some e → truthy (prop e key) = true → prop e key ≠ prop doc key)
    ∧ ∃ live, live ∈ data c ∧ prop live key = prop doc key in
  ((∀ key, key ∈ uniqueNames c → ¬ clash key) →
     validateUniqueProperties doc existing c = (Ok true, c))
  ∧ (∀ key, key ∈ uniqueNames c → clash key →
       ∃ key', key' ∈ uniqueNames c ∧ clash key'
               ∧ validateUniqueProperties doc existing c
                 = (Throw (duplicateKeyError key' (prop doc key')), c)).
Proof.
  intros clash. rewrite validateUniqueProperties_run.
  destruct (list_find _ (uniqueNames c)) as [[i key']|] eqn:Hfind.
  - apply list_find_Some in Hfind as (Hi & Hcoll & _).
    apply collision_spec in Hcoll.
    assert (key' ∈ uniqueNames c) as Hin by (by eapply list_elem_of_lookup_2).
    split.
    + intros Hnone. by destruct (Hnone key' Hin).
    + intros key Hkey Hclash. by exists key'.
  - apply list_find_None in Hfind. rewrite Forall_forall in Hfind.
    split; [done|]. intros key Hkey Hclash.
    destruct (Hfind key Hkey). by apply collision_spec.
Qed.

(** X6 (an update that keeps its unique values passes): when the document
    has, on every unique field, the value that [existing] has there, the
    uniqueness check returns [true], although [existing] itself is a live
    document holding those values. *)
Theorem validateUniqueProperties_unchanged_keys (doc existing : record)
    (c : Collection) :
  (∀ key, key ∈ uniqueNames c → prop doc key = prop existing key) →
  validateUniqueProperties doc (Some existing) c = (Ok true, c).
Proof.
  intros Hsame. rewrite validateUniqueProperties_run.
  assert (list_find (λ key, collision doc (Some existing) c key = true) (uniqueNames c)
          = None) as ->; [|done].
  apply list_find_None, Forall_forall. intros key Hkey.
  unfold collision, isEqual. rewrite (Hsame key Hkey).
  rewrite bool_decide_eq_true_2 by done.
  by destruct (truthy (prop existing key)).
Qed.

Lemma validateUniqueProperties_unchanged_keys_witness :
  validateUniqueProperties {[ "slug" := Str "a"; "content" := Str "new" ]}
    (Some (stamp 1 slugA)) slugs = (Ok true, slugs)
  ∧ validateUniqueProperties {[ "slug" := Str "a"; "content" := Str "new" ]} None slugs
    = (Throw (duplicateKeyError "slug" (Str "a")), slugs).
Proof.
  split; [|computes].
  apply validateUniqueProperties_unchanged_keys.
  intros key Hkey. apply list_elem_of_singleton in Hkey as ->. reflexivity.
Defined.



(** X8 ([validateAndReplace], order of the checks): an invalid or unknown
    identifier is reported first, whatever the schema says of the document;
    then a schema failure, whatever the document duplicates; the uniqueness
    check comes last and is made on the schema's validated value.  In each
    case the collection is as it was. *)
Theorem validateAndReplace_error_order (objectSchema : schema record)
    (doc : record) (c : Collection) :
  (∀ e, getByID (prop doc "$loki") c = (Throw e, c) →
        validateAndReplace objectSchema doc c = (Throw e, c))
  ∧ (∀ existing, getByID (prop doc "$loki") c = (Ok existing, c) →
       match error (objectSchema doc) with
       | Some err =>
           validateAndReplace objectSchema doc c
           = (Throw (ValidationError None (pick err ["details"; "anotate"])), c)
       | None =>
           ∀ e, validateUniqueProperties (value (objectSchema doc)) (Some existing) c
                = (Throw e, c) →
                validateAndReplace objectSchema doc c = (Throw e, c)
       end).
Proof.
  split.
  - intros e Hget. unfold validateAndReplace, bind. by rewrite Hget.
  - intros existing Hget. unfold validateAndReplace, bind.
    rewrite Hget, validateObjectSchema_run.
    destruct (error (objectSchema doc)); [done|].
    intros e Hu. by rewrite Hu.
Qed.

(** X9 ([validateAndPatch], order of the checks): an invalid or unknown
    identifier is reported first; then a duplicate among the values the
    patch itself supplies, before anything is merged and whatever the
    schema would say; the schema is consulted last, on the merged
    document. *)
Theorem validateAndPatch_error_order (objectSchema : schema record)
    (doc : record) (c : Collection) :
  (∀ e, getByID (prop doc "$loki") c = (Throw e, c) →
        validateAndPatch objectSchema doc c = (Throw e, c))
  ∧ (∀ existing, getByID (prop doc "$loki") c = (Ok existing, c) →
       (∀ e, validateUniqueProperties doc (Some existing) c = (Throw e, c) →
             validateAndPatch objectSchema doc c = (Throw e, c))
       ∧ (validateUniqueProperties doc (Some existing) c = (Ok true, c) →
          ∀ err,
            error (objectSchema (defaultsDeep (pick existing ["$loki"; "meta"])
                                   [doc; existing])) = Some err →
            (validateAndPatch objectSchema doc c).1
            = Throw (ValidationError None (pick err ["details"; "anotate"])))).
Proof.
  split.
  - intros e Hget. unfold validateAndPatch, bind. by rewrite Hget.
  - intros existing Hget. split.
    + intros e Hu. unfold validateAndPatch, bind. by rewrite Hget, Hu.
    + intros Hu err Herr. unfold validateAndPatch, bind.
      by rewrite Hget, Hu, validateObjectSchema_run, Herr.
Qed.





(** ** Counting documents and keeping identifiers *)

Lemma insert_Throw (doc : record) (c c' : Collection) (e : exn) :
  insert doc c = (Throw e, c') → c' = c.
Proof.
  unfold insert. destruct (negb _); [by inversion 1|].
  destruct (duplicateKey _ _ _); by inversion 1.
Qed.

Lemma update_Throw (doc : record) (c c' : Collection) (e : exn) :
  update doc c = (Throw e, c') → c' = c.
Proof.
  unfold update. destruct (doc !! "$loki") as [id|]; [|by inversion 1].
  destruct (locate id c) as [[i old]|]; [|by inversion 1].
  destruct (duplicateKey _ _ _); by inversion 1.
Qed.

Lemma remove_Throw (doc : record) (c c' : Collection) (e : exn) :
  remove doc c = (Throw e, c') → c' = c.
Proof. unfold remove. destruct (locate _ c) as [[i old]|]; by inversion 1. Qed.

(** In the model, an operation that throws leaves the collection as it
    was. *)
Lemma perform_Throw (objectSchema : schema record) (op : operation)
    (c c' : Collection) (e : exn) :
  perform objectSchema op c = (Throw e, c') → c' = c.
Proof.
  destruct op as [doc|doc|doc|doc|id]; simpl.
  - unfold validateAndInsert, bind. rewrite validateObjectSchema_run.
    destruct (error (objectSchema doc)); [by inversion 1|].
    destruct (validateUniqueProperties_result doc None c) as [Hu|[e' Hu]]; rewrite Hu;
      [apply insert_Throw|by inversion 1].
  - unfold validateAndReplace, bind.
    pose proof (getByID_state (prop doc "$loki") c) as Hst.
    destruct (getByID _ c) as [[existing|e0] c1]; simpl in Hst; subst c1;
      [|by inversion 1].
    rewrite validateObjectSchema_run.
    destruct (error (objectSchema doc)); [by inversion 1|].
    destruct (validateUniqueProperties_result (value (objectSchema doc)) (Some existing) c)
      as [Hu|[e' Hu]]; rewrite Hu; [apply update_Throw|by inversion 1].
  - unfold validateAndPatch, bind.
    pose proof (getByID_state (prop doc "$loki") c) as Hst.
    destruct (getByID _ c) as [[existing|e0] c1]; simpl in Hst; subst c1;
      [|by inversion 1].
    destruct (validateUniqueProperties_result doc (Some existing) c)
      as [Hu|[e' Hu]]; rewrite Hu; [|by inversion 1].
    rewrite validateObjectSchema_run.
    destruct (error (objectSchema _)); [by inversion 1|]. apply update_Throw.
  - unfold upsert. destruct (_ && _); [apply update_Throw|apply insert_Throw].
  - unfold removeByID, bind.
    pose proof (getByID_state id c) as Hst.
    destruct (getByID id c) as [[existing|e0] c1]; simpl in Hst; subst c1;
      [|by inversion 1].
    cbv zeta. destruct (remove existing c) as [[d|e1] c1] eqn:Hrem.
    + unfold ret. by inversion 1.
    + apply remove_Throw in Hrem. inversion 1; by subst.
Qed.

(** X11 (how operations change the number of documents): an operation that
    throws leaves the count as it was; a successful [removeByID] lowers it
    by one; a successful replace, patch, or upsert of a document whose
    [$loki] resolves leaves it; a successful [validateAndInsert], or upsert
    of any other document, raises it by one. *)
Theorem perform_count (objectSchema : schema record) (op : operation)
    (c : Collection) :
  match perform objectSchema op c with
  | (Throw _, c') => count c' = count c
  | (Ok _, c') =>
      match op with
      | RemoveByID _ => count c = S (count c')
      | _ => count c' = if updates op c then count c else S (count c)
      end
  end.
Proof.
  destruct (perform objectSchema op c) as [[r|e] c'] eqn:Hrun.
  - assert (∀ doc, update doc c = (Ok r, c') → count c' = count c) as Hupdate.
    { intros doc Hupd. apply update_Ok in Hupd as (_ & id & i & old & _ & _ & _ & ->).
      unfold count. simpl. apply length_insert. }
    assert (∀ doc, insert doc c = (Ok r, c') → count c' = S (count c)) as Hinsert.
    { intros doc Hins. apply insert_Ok in Hins as (_ & _ & _ & ->).
      unfold count. simpl. rewrite length_app. simpl. lia. }
    destruct op as [doc|doc|doc|doc|id]; simpl in *.
    + apply validateAndInsert_Ok in Hrun as (_ & _ & Hins). by eapply Hinsert.
    + apply validateAndReplace_Ok in Hrun as (ex & _ & _ & _ & _ & Hupd).
      by eapply Hupdate.
    + apply validateAndPatch_Ok in Hrun as (ex & _ & _ & _ & _ & Hupd).
      by eapply Hupdate.
    + unfold upsert in Hrun. destruct (_ && _); [by eapply Hupdate|by eapply Hinsert].
    + unfold removeByID, bind in Hrun.
      destruct (getByID id c) as [[ex|e0] c1] eqn:Hget; [|done].
      apply getByID_Ok in Hget as (-> & _). unfold remove in Hrun.
      destruct (locate _ c) as [[i old]|] eqn:Hloc; [|done].
      unfold ret in Hrun. inversion Hrun; subst.
      apply locate_Some in Hloc as [Hi _].
      unfold count. simpl. rewrite length_delete by eauto.
      apply lookup_lt_Some in Hi. lia.
  - apply perform_Throw in Hrun. by subst.
Qed.

(** X12 (identifiers stay engine-assigned): on a collection whose live
    documents have distinct, positive identifiers not above [maxId], every
    sequence of [validateAndInsert], [validateAndReplace],
    [validateAndPatch], [upsert] and [removeByID] calls, returning or
    throwing, leaves such a collection: no operation makes two documents
    share an identifier. *)
Theorem identifiers_stay_sound (objectSchema : schema record)
    (ops : list operation) (c : Collection) :
  sound c → sound (performAll objectSchema ops c).
Proof.
  apply (keeps_performAll sound); auto using sound_insert, sound_update, sound_remove.
Qed.

Lemma identifiers_stay_sound_witness :
  sound (performAll slugSchema
           [ RemoveByID (Num 1); Upsert {[ "$loki" := Num 1; "slug" := Str "d" ]};
             ValidateAndReplace {[ "$loki" := Num 2; "slug" := Str "e"; "meta" := Num 5 ]} ]
           slugs).
Proof. apply identifiers_stay_sound, sound_slugs. Defined.

(** ** Constraint introspection and initialization *)

(** X13 ([hasUniqueProperties]): the result is [true] exactly when every
    given key is among the collection's unique names, whatever the order or
    repetition of the keys; so it holds for no keys at all, and for any
    selection of keys for which it holds. *)
Theorem hasUniqueProperties_subset (c : Collection) (keys : list string) :
  (hasUniqueProperties c keys = true ↔ ∀ k, k ∈ keys → k ∈ uniqueNames c)
  ∧ hasUniqueProperties c [] = true
  ∧ (∀ keys', (∀ k, k ∈ keys' → k ∈ keys) →
       hasUniqueProperties c keys = true → hasUniqueProperties c keys' = true).
Proof.
  split; [apply hasUniqueProperties_spec|]. split; [done|].
  intros keys' Hsub Hkeys. apply hasUniqueProperties_spec. intros k Hk.
  by apply (proj1 (hasUniqueProperties_spec c keys) Hkeys), Hsub.
Qed.

Lemma shouldRebuild_conforming (this : initializer) (db : Db) (c : Collection) :
  db !! collectionName this = Some c →
  hasUniqueProperties c (uniqueKeys this) = true →
  shouldRebuild this db = (Ok false, db).
Proof.
  intros Hc Hhas. unfold shouldRebuild, getCollection, bind, gets, ret.
  by rewrite Hc, Hhas.
Qed.

Lemma initialize_conforming (this : initializer) (db : Db) (c : Collection) :
  db !! collectionName this = Some c →
  hasUniqueProperties c (uniqueKeys this) = true →
  initialize this db = (Ok c, db).
Proof.
  intros Hc Hhas. unfold initialize. unfold bind at 1.
  rewrite (shouldRebuild_conforming this db c) by done.
  unfold getCollection, bind, gets, ret. by rewrite Hc.
Qed.

Lemma initialize_absent (this : initializer) (db : Db) :
  defaultHooks this →
  db !! collectionName this = None →
  initialize this db
  = (Ok (emptyCollection (uniqueKeys this)),
     <[collectionName this := emptyCollection (uniqueKeys this)]> db).
Proof.
  intros (HpreC & HpostC & HpreR & HpostR) Hc.
  unfold initialize, shouldRebuild, rebuild, create.
  rewrite HpreC, HpostC, HpreR, HpostR.
  unfold notImplemented, getCollection, addCollection, bind, ret, gets.
  rewrite Hc. simpl. rewrite Hc. simpl. by rewrite Hc, lookup_insert_eq.
Qed.

(** X14 ([initialize] keeps a conforming collection): when the collection
    exists and enforces every configured key, [initialize] returns it and
    leaves the database as it is; [rebuild] is not called and no hook runs,
    whatever the hooks are. *)
Theorem initialize_keeps_conforming (this : initializer) (db : Db) (c : Collection) :
  db !! collectionName this = Some c →
  hasUniqueProperties c (uniqueKeys this) = true →
  shouldRebuild this db = (Ok false, db)
  ∧ initialize this db = (Ok c, db).
Proof.
  intros Hc Hhas.
  split; [by eapply shouldRebuild_conforming|by apply initialize_conforming].
Qed.

Lemma initialize_keeps_conforming_witness :
  let this := {| collectionName := "TESTS"; uniqueKeys := ["slug"];
                 collectionSchema := Joi.any; objectSchema := Joi.any;
                 preCreate := throw (EngineError "preCreate");
                 postCreate := throw (EngineError "postCreate");
                 preRebuild := throw (EngineError "preRebuild");
                 postRebuild := throw (EngineError "postRebuild") |} in
  initialize this {[ "TESTS" := slugs ]} = (Ok slugs, {[ "TESTS" := slugs ]}).
Proof.
  intros this.
  apply (initialize_keeps_conforming this {[ "TESTS" := slugs ]} slugs); reflexivity.
Defined.

(** X15 ([initialize] twice): when [initialize], with the default hooks,
    returns a collection, that collection is the one stored under the
    configured name and enforces every configured key; [shouldRebuild] is
    then [false], and initializing again returns the same collection and
    changes nothing. *)
Theorem initialize_idempotent (this : initializer) (db db' : Db) (c : Collection) :
  defaultHooks this →
  initialize this db = (Ok c, db') →
  db' !! collectionName this = Some c
  ∧ hasUniqueProperties c (uniqueKeys this) = true
  ∧ shouldRebuild this db' = (Ok false, db')
  ∧ initialize this db' = (Ok c, db').
Proof.
  intros Hhooks Hrun.
  destruct (initialize_enforces this db db' c Hhooks Hrun) as [Hc Hhas].
  split; [done|]. split; [done|].
  split; [by eapply shouldRebuild_conforming|by apply initialize_conforming].
Qed.

Lemma initialize_idempotent_witness :
  let rebuilt := {| data := stamped [john; julius]; uniqueNames := ["name"];
                    binaryIndices := []; maxId := 2 |} in
  initialize (testsInitializer ["name"] Joi.any) {[ "TESTS" := rebuilt ]}
  = (Ok rebuilt, {[ "TESTS" := rebuilt ]}).
Proof.
  intros rebuilt.
  destruct (initialize_idempotent (testsInitializer ["name"] Joi.any)
              (testsDb [john; julius]) {[ "TESTS" := rebuilt ]} rebuilt)
    as (_ & _ & _ & Hagain); [repeat split | computes | exact Hagain].
Defined.

(** X16 ([initialize] creates a missing collection): with the default
    hooks, when no collection has the configured name, [initialize] adds an
    empty collection with exactly the configured unique keys, returns it,
    and leaves every other collection alone. *)
Theorem initialize_creates_absent (this : initializer) (db : Db) :
  defaultHooks this →
  db !! collectionName this = None →
  shouldRebuild this db = (Ok true, db)
  ∧ initialize this db
    = (Ok (emptyCollection (uniqueKeys this)),
       <[collectionName this := emptyCollection (uniqueKeys this)]> db)
  ∧ (∀ name, name ≠ collectionName this →
       (initialize this db).2 !! name = db !! name).
Proof.
  intros Hhooks Hc. split.
  { unfold shouldRebuild, getCollection, bind, gets, ret. by rewrite Hc. }
  rewrite (initialize_absent this db) by done. split; [done|].
  intros name Hname. simpl. by rewrite lookup_insert_ne.
Qed.

Lemma initialize_creates_absent_witness :
  initialize (testsInitializer ["name"; "content"] Joi.any) ∅
  = (Ok (emptyCollection ["name"; "content"]),
     {[ "TESTS" := emptyCollection ["name"; "content"] ]}).
Proof.
  destruct (initialize_creates_absent (testsInitializer ["name"; "content"] Joi.any) ∅)
    as (_ & Hrun & _); [repeat split | reflexivity |].
  rewrite Hrun. computes.
Defined.

(** X17 ([initialize] refuses invalid data): with the default hooks, when
    the collection exists, lacks a configured key and its stripped data
    fails the collection schema, [initialize] throws the rebuild
    [ValidationError] and the database is as it was. *)
Theorem initialize_invalid_data (this : initializer) (db : Db) (c : Collection)
    (e : record) :
  defaultHooks this →
  db !! collectionName this = Some c →
  hasUniqueProperties c (uniqueKeys this) = false →
  error (collectionSchema this (stripLokiProperties <$> data c)) = Some e →
  initialize this db = (Throw (rebuildError (collectionName this)), db).
Proof.
  intros (HpreC & HpostC & HpreR & HpostR) Hc Hhas Herr.
  unfold initialize, shouldRebuild, rebuild.
  rewrite HpreR, HpostR.
  unfold notImplemented, getCollection, bind, ret, gets, throw.
  rewrite Hc, Hhas. simpl. by rewrite Hc, Herr.
Qed.

Lemma initialize_invalid_data_witness :
  initialize (testsInitializer ["name"] numericNames) (testsDb [john])
  = (Throw (rebuildError "TESTS"), testsDb [john]).
Proof.
  apply (initialize_invalid_data (testsInitializer ["name"] numericNames)
           (testsDb [john]) (insertArray [john] (emptyCollection [])).2
           (joiError "name must be a number"));
    [repeat split | reflexivity | reflexivity | reflexivity].
Defined.

Lemma rebuild_replay (this : initializer) (db : Db) (c : Collection) :
  defaultHooks this →
  db !! collectionName this = Some c →
  error (collectionSchema this (stripLokiProperties <$> data c)) = None →
  Forall (λ doc, prop doc "$loki" = Undefined)
    (value (collectionSchema this (stripLokiProperties <$> data c))) →
  uniqueOn (uniqueKeys this)
    (stamped (value (collectionSchema this (stripLokiProperties <$> data c)))) →
  rebuild this db
  = (Ok tt,
     <[collectionName this :=
         {| data := stamped (value (collectionSchema this (stripLokiProperties <$> data c)));
            uniqueNames := uniqueKeys this; binaryIndices := [];
            maxId := Z.of_nat (length (value (collectionSchema this
                                                (stripLokiProperties <$> data c)))) |}]> db).
Proof.
  intros (HpreC & HpostC & HpreR & HpostR) Hc Hvalid Hids Huniq.
  set (validated := value (collectionSchema this (stripLokiProperties <$> data c))) in *.
  unfold rebuild, create. rewrite HpreC, HpostC, HpreR, HpostR.
  unfold notImplemented, getCollection, bind, ret, gets. rewrite Hc. cbn zeta.
  rewrite Hvalid. unfold removeCollection, addCollection.
  rewrite lookup_delete_eq. unfold on. rewrite lookup_insert_eq.
  fold validated.
  pose proof (insertArray_accepted validated (emptyCollection (uniqueKeys this))) as Hins.
  simpl in Hins.
  assert (imap (λ i doc, stamp (0 + 1 + Z.of_nat i) doc) validated = stamped validated)
    as Hst.
  { unfold stamped. apply imap_ext. intros i d _. simpl. f_equal. lia. }
  rewrite Hst in Hins. rewrite Hins by done.
  rewrite insert_insert_eq, insert_delete_eq. done.
Qed.

(** X18 ([initialize] migrates a collection): with the default hooks, when
    the collection exists but lacks a configured key, its stripped data
    passes the collection schema, and the validated documents carry no
    identifier and would not collide on the configured keys, [initialize]
    returns the rebuilt collection: it enforces exactly the configured keys
    and holds the validated documents in order, with identifiers
    1, 2, ... *)
Theorem initialize_migrates (this : initializer) (db : Db) (c : Collection) :
  defaultHooks this →
  db !! collectionName this = Some c →
  hasUniqueProperties c (uniqueKeys this) = false →
  error (collectionSchema this (stripLokiProperties <$> data c)) = None →
  Forall (λ doc, prop doc "$loki" = Undefined)
    (value (collectionSchema this (stripLokiProperties <$> data c))) →
  uniqueOn (uniqueKeys this)
    (stamped (value (collectionSchema this (stripLokiProperties <$> data c)))) →
  let validated := value (collectionSchema this (stripLokiProperties <$> data c)) in
  let rebuilt := {| data := stamped validated; uniqueNames := uniqueKeys this;
                    binaryIndices := []; maxId := Z.of_nat (length validated) |} in
  initialize this db = (Ok rebuilt, <[collectionName this := rebuilt]> db)
  ∧ stripLokiProperties <$> data rebuilt = stripLokiProperties <$> validated.
Proof.
  intros Hhooks Hc Hhas Hvalid Hids Huniq validated rebuilt.
  split; [|apply strip_stamped].
  unfold initialize. unfold bind at 1.
  assert (shouldRebuild this db = (Ok true, db)) as ->.
  { unfold shouldRebuild, getCollection, bind, gets, ret. by rewrite Hc, Hhas. }
  unfold bind at 1. rewrite (rebuild_replay this db c) by done.
  unfold getCollection, bind, gets, ret. by rewrite lookup_insert_eq.
Qed.

Lemma initialize_migrates_witness :
  let rebuilt := {| data := stamped [john; julius]; uniqueNames := ["name"];
                    binaryIndices := []; maxId := 2 |} in
  initialize (testsInitializer ["name"] Joi.any) (testsDb [john; julius])
  = (Ok rebuilt, {[ "TESTS" := rebuilt ]}).
Proof.
  intros rebuilt.
  destruct (initialize_migrates (testsInitializer ["name"] Joi.any)
              (testsDb [john; julius])
              (insertArray [john; julius] (emptyCollection [])).2) as [Hrun _].
  - repeat split.
  - reflexivity.
  - reflexivity.
  - reflexivity.
  - repeat constructor.
  - intros i j r1 r2 f Hij H1 H2 Hf [_ Heq].
    apply list_elem_of_singleton in Hf as ->.
    destruct i as [|[|i]], j as [|[|j]]; try done;
      inversion H1; inversion H2; subst; vm_compute in Heq; discriminate.
  - rewrite Hrun. computes.
Defined.

(** ** The errors that come out *)

Lemma insert_Throw_engine (doc : record) (c c' : Collection) (e : exn) :
  insert doc c = (Throw e, c') → ∃ msg, e = EngineError msg.
Proof.
  unfold insert, duplicateError. destruct (negb _); [inversion 1; eauto|].
  destruct (duplicateKey _ _ _); inversion 1; eauto.
Qed.

Lemma update_Throw_engine (doc : record) (c c' : Collection) (e : exn) :
  update doc c = (Throw e, c') → ∃ msg, e = EngineError msg.
Proof.
  unfold update, duplicateError.
  destruct (doc !! "$loki") as [id|]; [|inversion 1; eauto].
  destruct (locate id c) as [[i old]|]; [|inversion 1; eauto].
  destruct (duplicateKey _ _ _); inversion 1; eauto.
Qed.

Lemma getByID_Throw (id : jsval) (c c' : Collection) (e : exn) :
  getByID id c = (Throw e, c') →
  e = ValidationError None ∅ ∨ e = ObjectNotFoundError None ∅.
Proof.
  unfold getByID, throw, ret. destruct (_ || _); [inversion 1; auto|].
  destruct (get id c); inversion 1; auto.
Qed.

Lemma validateUniqueProperties_Throw (doc : record) (existing : option record)
    (c c' : Collection) (e : exn) :
  validateUniqueProperties doc existing c = (Throw e, c') →
  exn_name e = "ValidationError".
Proof.
  rewrite validateUniqueProperties_run.
  destruct (list_find _ _) as [[i key]|]; by inversion 1.
Qed.

Lemma remove_found (id : jsval) (c : Collection) (doc : record) :
  get id c = Some doc → ∃ c', remove doc c = (Ok doc, c').
Proof.
  unfold get. destruct (locate id c) as [[i x]|] eqn:Hloc; [|done].
  simpl. inversion 1; subst.
  pose proof (locate_Some _ _ _ _ Hloc) as [_ Hid].
  unfold remove, prop. rewrite Hid. simpl. rewrite Hloc. eauto.
Qed.

(** X19 (the errors each operation can throw): [validateAndInsert] throws a
    [ValidationError] or an error of the engine; [validateAndReplace] and
    [validateAndPatch] also an [ObjectNotFoundError]; [upsert], which makes
    no check of its own, only errors of the engine; and [removeByID] only
    the two errors of [getByID], never one of the engine. *)
Theorem perform_throws_only (objectSchema : schema record) (op : operation)
    (c c' : Collection) (e : exn) :
  perform objectSchema op c = (Throw e, c') →
  match op with
  | ValidateAndInsert _ =>
      exn_name e = "ValidationError" ∨ ∃ msg, e = EngineError msg
  | ValidateAndReplace _ | ValidateAndPatch _ =>
      exn_name e = "ValidationError" ∨ exn_name e = "ObjectNotFoundError"
      ∨ ∃ msg, e = EngineError msg
  | Upsert _ => ∃ msg, e = EngineError msg
  | RemoveByID _ =>
      exn_name e = "ValidationError" ∨ exn_name e = "ObjectNotFoundError"
  end.
Proof.
  destruct op as [doc|doc|doc|doc|id]; simpl.
  - unfold validateAndInsert, bind. rewrite validateObjectSchema_run.
    destruct (error (objectSchema doc)); [inversion 1; auto|].
    destruct (validateUniqueProperties doc None c) as [[b|e1] c1] eqn:Hu.
    + intros Hins. right. by eapply insert_Throw_engine.
    + inversion 1; subst. left. by eapply validateUniqueProperties_Throw.
  - unfold validateAndReplace, bind.
    destruct (getByID _ c) as [[existing|e0] c1] eqn:Hget.
    + rewrite validateObjectSchema_run.
      destruct (error (objectSchema doc)); [inversion 1; auto|].
      destruct (validateUniqueProperties _ (Some existing) c1) as [[b|e1] c2] eqn:Hu.
      * intros Hupd. right. right. by eapply update_Throw_engine.
      * inversion 1; subst. left. by eapply validateUniqueProperties_Throw.
    + inversion 1; subst. by destruct (getByID_Throw _ _ _ _ Hget) as [->| ->]; auto.
  - unfold validateAndPatch, bind.
    destruct (getByID _ c) as [[existing|e0] c1] eqn:Hget.
    + destruct (validateUniqueProperties _ (Some existing) c1) as [[b|e1] c2] eqn:Hu.
      * rewrite validateObjectSchema_run.
        destruct (error (objectSchema _)); [inversion 1; auto|].
        intros Hupd. right. right. by eapply update_Throw_engine.
      * inversion 1; subst. left. by eapply validateUniqueProperties_Throw.
    + inversion 1; subst. by destruct (getByID_Throw _ _ _ _ Hget) as [->| ->]; auto.
  - unfold upsert.
    destruct (_ && _); [apply update_Throw_engine|apply insert_Throw_engine].
  - unfold removeByID, bind.
    destruct (getByID id c) as [[existing|e0] c1] eqn:Hget.
    + apply getByID_Ok in Hget as (-> & Hget & _).
      destruct (remove_found _ _ _ Hget) as [c2 Hrem].
      cbv zeta. rewrite Hrem. unfold ret. by inversion 1.
    + inversion 1; subst. by destruct (getByID_Throw _ _ _ _ Hget) as [->| ->]; auto.
Qed.

Lemma perform_throws_only_witness :
  exn_name (ObjectNotFoundError None ∅) = "ValidationError"
  ∨ exn_name (ObjectNotFoundError None ∅) = "ObjectNotFoundError".
Proof.
  apply (perform_throws_only Joi.any (RemoveByID (Num 7)) slugs slugs).
  computes.
Defined.

(** X20 (the constraints are not the operations' to change): whatever
    sequence of operations runs, [uniqueProperties] and [indexedProperties]
    of the collection are what they were, and so is the answer of
    [hasUniqueProperties] for any keys. *)
Theorem constraints_unchanged (objectSchema : schema record)
    (ops : list operation) (c : Collection) :
  uniqueProperties (performAll objectSchema ops c) = uniqueProperties c
  ∧ indexedProperties (performAll objectSchema ops c) = indexedProperties c
  ∧ ∀ keys, hasUniqueProperties (performAll objectSchema ops c) keys
            = hasUniqueProperties c keys.
Proof.
  assert (uniqueNames (performAll objectSchema ops c) = uniqueNames c
          ∧ binaryIndices (performAll objectSchema ops c) = binaryIndices c) as [Hu Hb].
  { apply (keeps_performAll
             (λ c', uniqueNames c' = uniqueNames c ∧ binaryIndices c' = binaryIndices c));
      [| | |done].
    - intros doc c0 H0. unfold insert. destruct (negb _); [done|].
      by destruct (duplicateKey _ _ _).
    - intros doc c0 H0. unfold update. destruct (doc !! "$loki") as [id|]; [|done].
      destruct (locate id c0) as [[i old]|]; [|done].
      by destruct (duplicateKey _ _ _).
    - intros doc c0 H0. unfold remove.
      by destruct (locate _ c0) as [[i old]|]. }
  unfold uniqueProperties, indexedProperties, hasUniqueProperties.
  split; [done|]. split; [done|]. intros keys. by rewrite Hu.
Qed.

(** ** [lib/db.js] *)

Lemma forEach_removeCollection (names : list string) (db : Db) :
  ∃ db', forEach names removeCollection db = (Ok tt, db')
         ∧ ∀ j, db' !! j = if decide (j ∈ names) then None else db !! j.
Proof.
  revert db. induction names as [|n names IH]; intros db.
  - exists db. split; [done|]. intros j. by rewrite decide_False by apply not_elem_of_nil.
  - destruct (IH (delete n db)) as (db' & Hrun & Hlook).
    exists db'. split; [done|]. intros j. rewrite Hlook.
    destruct (decide (j ∈ names)) as [Hj|Hj].
    + by rewrite decide_True by (apply elem_of_cons; auto).
    + destruct (decide (j = n)) as [->|Hne].
      * rewrite decide_True by (apply elem_of_cons; auto). apply lookup_delete_eq.
      * rewrite decide_False by (rewrite elem_of_cons; intuition).
        by apply lookup_delete_ne.
Qed.

Lemma not_listed_absent {A} (m : gmap string A) (j : string) :
  j ∉ (map_to_list m).*1 → m !! j = None.
Proof.
  intros Hj. destruct (m !! j) as [x|] eqn:Hx; [|done].
  exfalso. apply Hj. apply list_elem_of_fmap. exists (j, x).
  split; [done|]. by apply elem_of_map_to_list.
Qed.

Lemma clearDatabase_run (db : Db) : clearDatabase db = (Ok tt, ∅).
Proof.
  unfold clearDatabase. cbv zeta.
  destruct (forEach_removeCollection (map_to_list db).*1 db) as (db' & -> & Hlook).
  f_equal. apply map_eq. intros j. rewrite Hlook, lookup_empty.
  destruct (decide _) as [|Hj]; [done|]. by apply not_listed_absent.
Qed.

Lemma forEach_clear (names : list string) (db : Db) :
  NoDup names → (∀ n, n ∈ names → is_Some (db !! n)) →
  ∃ db', forEach names (λ name, on name clear) db = (Ok tt, db')
         ∧ ∀ j, db' !! j = if decide (j ∈ names)
                           then (λ c, withData c [] 0) <$> db !! j else db !! j.
Proof.
  revert db. induction names as [|n names IH]; intros db Hnodup Hdom.
  - exists db. split; [done|]. intros j. by rewrite decide_False by apply not_elem_of_nil.
  - apply NoDup_cons in Hnodup as [Hn Hnodup].
    destruct (Hdom n) as [c Hc]; [apply elem_of_cons; auto|].
    destruct (IH (<[n := withData c [] 0]> db)) as (db' & Hrun & Hlook); [done| |].
    { intros k Hk. rewrite lookup_insert_ne by (intros ->; done).
      apply Hdom, elem_of_cons; auto. }
    exists db'. split.
    { simpl. unfold bind, on at 1. rewrite Hc. simpl. exact Hrun. }
    intros j. rewrite Hlook.
    destruct (decide (j ∈ names)) as [Hj|Hj].
    + rewrite decide_True by (apply elem_of_cons; auto).
      by rewrite lookup_insert_ne by (intros ->; done).
    + destruct (decide (j = n)) as [->|Hne].
      * rewrite decide_True by (apply elem_of_cons; auto).
        by rewrite lookup_insert_eq, Hc.
      * rewrite decide_False by (rewrite elem_of_cons; intuition).
        by apply lookup_insert_ne.
Qed.

Lemma clearAllData_run (db : Db) :
  clearAllData db = (Ok tt, (λ c, withData c [] 0) <$> db).
Proof.
  unfold clearAllData.
  destruct (forEach_clear (map_to_list db).*1 db) as (db' & -> & Hlook).
  - apply NoDup_fst_map_to_list.
  - intros n Hn. apply list_elem_of_fmap in Hn as ([k x] & -> & Hkx).
    apply elem_of_map_to_list in Hkx. simpl. eauto.
  - f_equal. apply map_eq. intros j. rewrite Hlook, lookup_fmap.
    destruct (decide _) as [|Hj]; [done|]. by rewrite (not_listed_absent db j).
Qed.

(** X21 ([clearDatabase]): it never throws and leaves a database without
    collections: [getCollection] answers [null] for every name. *)
Theorem clearDatabase_removes_all (db : Db) :
  ∃ db', clearDatabase db = (Ok tt, db')
         ∧ ∀ name, getCollection name db' = (Ok None, db').
Proof.
  exists ∅. split; [apply clearDatabase_run|]. intros name.
  unfold getCollection, gets. by rewrite lookup_empty.
Qed.

(** X22 ([clearAllData]): it never throws, removes no collection and adds
    none; every collection is left without documents and with the unique
    and the indexed properties it had. *)
Theorem clearAllData_keeps_collections (db : Db) :
  ∃ db', clearAllData db = (Ok tt, db')
         ∧ ∀ name,
             match db !! name with
             | Some c =>
                 ∃ c', db' !! name = Some c'
                       ∧ count c' = 0%nat
                       ∧ uniqueProperties c' = uniqueProperties c
                       ∧ indexedProperties c' = indexedProperties c
             | None => db' !! name = None
             end.
Proof.
  exists ((λ c, withData c [] 0) <$> db). split; [apply clearAllData_run|].
  intros name. rewrite lookup_fmap.
  destruct (db !! name) as [c|]; [|done]. by exists (withData c [] 0).
Qed.

(** X23 ([clearAllData], then [initialize]): clearing the data keeps the
    constraints, so a collection that enforced the configured keys is not
    rebuilt afterwards: [initialize] returns it, empty, and no hook
    runs. *)
Theorem clearAllData_then_initialize (this : initializer) (db : Db) (c : Collection) :
  db !! collectionName this = Some c →
  hasUniqueProperties c (uniqueKeys this) = true →
  (clearAllData ;; initialize this) db
  = (Ok (withData c [] 0), (λ c, withData c [] 0) <$> db).
Proof.
  intros Hc Hhas. unfold bind. rewrite clearAllData_run.
  apply initialize_conforming; [|done]. by rewrite lookup_fmap, Hc.
Qed.

Lemma clearAllData_then_initialize_witness :
  (clearAllData ;; initialize (testsInitializer ["slug"] Joi.any)) {[ "TESTS" := slugs ]}
  = (Ok (withData slugs [] 0), (λ c, withData c [] 0) <$> {[ "TESTS" := slugs ]}).
Proof.
  apply (clearAllData_then_initialize (testsInitializer ["slug"] Joi.any)
           {[ "TESTS" := slugs ]} slugs); reflexivity.
Defined.

(** X24 ([clearDatabase], then [initialize]): with the default hooks, after
    [clearDatabase] the collection is created anew: it is empty, enforces
    exactly the configured keys, and is the only collection of the
    database. *)
Theorem clearDatabase_then_initialize (this : initializer) (db : Db) :
  defaultHooks this →
  (clearDatabase ;; initialize this) db
  = (Ok (emptyCollection (uniqueKeys this)),
     {[ collectionName this := emptyCollection (uniqueKeys this) ]}).
Proof.
  intros Hhooks. unfold bind. rewrite clearDatabase_run.
  by rewrite (initialize_absent this ∅) by done.
Qed.

Lemma clearDatabase_then_initialize_witness :
  (clearDatabase ;; initialize (testsInitializer ["slug"] Joi.any)) (testsDb [john; julius])
  = (Ok (emptyCollection ["slug"]), {[ "TESTS" := emptyCollection ["slug"] ]}).
Proof.
  apply (clearDatabase_then_initialize (testsInitializer ["slug"] Joi.any)).
  repeat split.
Defined.

(** ** The factory, composed *)

(** X25 ([valueToArray]): the result is always an array, and wrapping twice
    is wrapping once; a value that is not an array becomes the array of
    that one value. *)
Theorem valueToArray_idempotent (input : jsval) :
  (∃ items, valueToArray input = Arr items)
  ∧ valueToArray (valueToArray input) = valueToArray input
  ∧ ((∀ items, input ≠ Arr items) → valueToArray input = Arr [input]).
Proof.
  split; [destruct input; simpl; eauto|]. split; [by destruct input|].
  intros Hinput. destruct input as [| |b|n|s|items|m]; try done.
  by destruct (Hinput items).
Qed.

Lemma Initializer_accepts (name : string) (input : jsval)
    (collectionSchema : option (schema (list record)))
    (objectSchema : option (schema record)) (db : Db) :
  acceptableUniqueKeys input = true →
  ∃ this,
    Initializer name input collectionSchema objectSchema db = (Ok this, db)
    ∧ collectionName this = name
    ∧ uniqueKeys this = namedKeys input
    ∧ defaultHooks this.
Proof.
  unfold Initializer.
  destruct input as [| |b|n|s|items|m]; try done.
  - intros _. eexists. repeat split.
  - cbn [acceptableUniqueKeys valueToArray Schema.uniqueKeys forallb].
    rewrite uniqueKey_accepts.
    rewrite (bool_decide_eq_true_2 (NoDup [Str s])) by apply NoDup_singleton.
    destruct (bool_decide (s = "")); cbn; [done|].
    intros _. eexists. repeat split.
  - cbn [acceptableUniqueKeys valueToArray Schema.uniqueKeys].
    rewrite uniqueKeys_accepts.
    destruct (forallb _ items); cbn; [|done].
    destruct (bool_decide (NoDup items)); cbn; [|done].
    intros _. eexists. repeat split.
Qed.

(** X26 (factory, then [initialize]): for accepted unique keys, whenever
    [initialize] of the initializer that the factory returns gives a
    collection (created, kept, or rebuilt), that collection is stored under
    the given name and each named key is one of its unique properties. *)
Theorem Initializer_then_initialize (name : string) (input : jsval)
    (collectionSchema : option (schema (list record)))
    (objectSchema : option (schema record)) (db db' : Db) (c : Collection) :
  acceptableUniqueKeys input = true →
  (let* this := Initializer name input collectionSchema objectSchema in
   initialize this) db = (Ok c, db') →
  db' !! name = Some c
  ∧ ∀ key, key ∈ namedKeys input → key ∈ uniqueProperties c.
Proof.
  intros Hinput.
  destruct (Initializer_accepts name input collectionSchema objectSchema db Hinput)
    as (this & Hmake & Hname & Hkeys & Hhooks).
  unfold bind. rewrite Hmake. intros Hrun.
  destruct (initialize_enforces this db db' c Hhooks Hrun) as [Hc Hhas].
  rewrite Hname in Hc. rewrite Hkeys in Hhas. split; [done|].
  by apply hasUniqueProperties_spec.
Qed.

Lemma Initializer_then_initialize_witness :
  let rebuilt := {| data := stamped [john; julius]; uniqueNames := ["name"];
                    binaryIndices := []; maxId := 2 |} in
  ({[ "TESTS" := rebuilt ]} : Db) !! "TESTS" = Some rebuilt
  ∧ "name" ∈ uniqueProperties rebuilt.
Proof.
  intros rebuilt.
  destruct (Initializer_then_initialize "TESTS" (Str "name") None None
              (testsDb [john; julius]) {[ "TESTS" := rebuilt ]} rebuilt)
    as [Hstored Hkeys]; [reflexivity | computes |].
  split; [exact Hstored|]. apply Hkeys, list_elem_of_singleton. reflexivity.
Defined.
